(** * StringPool: a bump-pointer string pool and its string handles

    Shallow embedding of [StringPool/StringPool/StringPool.h]
    (classes [StringPool::String] and [StringPool::Allocator]) and the
    properties its specification states about them.

    Conventions of the embedding.
    - Pointers are flat byte addresses in [Z]; [nullptr] is [0].  Pointer
      arithmetic [p + n] on a [wchar_t*] advances by [n * sizeof(wchar_t)]
      bytes and does not wrap (the abstract machine has no modular
      pointers).
    - [size_t] values are [Z]; [size_t] arithmetic is written with its
      wrap-around modulo [2 ^ (8 * sizeof(size_t))].
    - A [wchar_t] is a [Z]; it is compared by value.
    - The source range [[start, finish)] handed to [AllocString] is
      represented by its contents, a [list wchar_t].
    - [std::vector] is a [list]; [push_back] appends and is taken not to
      throw.  The only failures are the two [throw] statements of
      [AllocMemory]. *)

From Stdlib Require Import ZArith List Bool Lia PeanoNat.
Import ListNotations.

Local Open Scope Z_scope.

(** ** Platform: the sizes the header leaves to the compiler *)

Record Platform : Type := mkPlatform {
  sizeof_wchar_t : Z;   (* 2 with MSVC, 4 with gcc/clang on Linux *)
  sizeof_size_t  : Z    (* 4 on 32-bit targets, 8 on 64-bit targets *)
}.

Definition lp64  : Platform := mkPlatform 4 8.   (* Linux x86-64 *)
Definition win64 : Platform := mkPlatform 2 8.   (* _M_X64 *)
Definition win32 : Platform := mkPlatform 2 4.   (* _M_IX86 *)

(** The targets the header is written for. *)
Definition platform_ok (P : Platform) : Prop :=
  (sizeof_wchar_t P = 2 \/ sizeof_wchar_t P = 4) /\
  (sizeof_size_t P = 4 \/ sizeof_size_t P = 8).

(** [size_t] is an unsigned integer of [8 * sizeof(size_t)] bits. *)
Definition SIZE_MODULUS (P : Platform) : Z := 2 ^ (8 * sizeof_size_t P).

Definition size_t_wrap (P : Platform) (n : Z) : Z := n mod SIZE_MODULUS P.

(** [struct ChunkHeader { size_t SizeInBytes; wchar_t Chars[1]; }]: the
    two members, padded to the alignment of [size_t]. *)
Definition sizeof_ChunkHeader (P : Platform) : Z :=
  let raw := sizeof_size_t P + sizeof_wchar_t P in
  ((raw + sizeof_size_t P - 1) / sizeof_size_t P) * sizeof_size_t P.

(** The anonymous [enum] of [Allocator]. *)
Definition kMinChunkSizeInBytes : Z := 600000.
Definition kMaxStringLength : Z := 1024 * 1024.

(** ** Character memory *)

Definition wchar_t : Type := Z.

(** The [wchar_t] stored at each byte address. *)
Definition Memory : Type := Z -> wchar_t.

Definition store (m : Memory) (addr : Z) (c : wchar_t) : Memory :=
  fun a => if a =? addr then c else m a.

(** ** The String class *)

Record String : Type := mkString {
  m_ptr    : Z;   (* const wchar_t* m_ptr{}  *)
  m_length : Z    (* size_t m_length{}       *)
}.

(** [String() noexcept = default], with the member initialisers [{}]. *)
Definition String_default : String := mkString 0 0.

Section StringClass.

Variable P : Platform.

Let wsz : Z := sizeof_wchar_t P.

Definition Length (s : String) : Z := m_length s.

Definition IsEmpty (s : String) : bool := m_length s =? 0.

(** [std::wstring{ptr, n}]: the [n] characters starting at [ptr]. *)
Fixpoint read_chars (m : Memory) (ptr : Z) (n : nat) : list wchar_t :=
  match n with
  | O => []
  | S k => m ptr :: read_chars m (ptr + wsz) k
  end.

Definition ToStdString (m : Memory) (s : String) : list wchar_t :=
  if negb (IsEmpty s)
  then read_chars m (m_ptr s) (Z.to_nat (m_length s))
  else [].

(** [wmemcmp(a, b, n)]: the first differing pair decides. *)
Fixpoint wmemcmp (m : Memory) (a b : Z) (n : nat) : Z :=
  match n with
  | O => 0
  | S k =>
      if m a <? m b then -1
      else if m b <? m a then 1
      else wmemcmp m (a + wsz) (b + wsz) k
  end.

Definition Compare (m : Memory) (this other : String) : Z :=
  let minLength :=
    if m_length this <? m_length other then m_length this
    else m_length other in
  let result := wmemcmp m (m_ptr this) (m_ptr other) (Z.to_nat minLength) in
  if negb (result =? 0) then result
  else if m_length this <? m_length other then -1
  else if m_length this >? m_length other then 1
  else 0.

Definition op_eq (m : Memory) (a b : String) : bool := Compare m a b =? 0.
Definition op_lt (m : Memory) (a b : String) : bool := Compare m a b <? 0.
Definition op_gt (m : Memory) (a b : String) : bool := Compare m a b >? 0.

End StringClass.

(** *** Moving handles

    Move construction and move assignment write through two references
    that may name the same object, so handles live in a store indexed by
    object identity. *)

Definition Objects : Type := nat -> String.

Definition set_m_ptr (o : Objects) (x : nat) (v : Z) : Objects :=
  fun y => if Nat.eqb y x then mkString v (m_length (o y)) else o y.

Definition set_m_length (o : Objects) (x : nat) (v : Z) : Objects :=
  fun y => if Nat.eqb y x then mkString (m_ptr (o y)) v else o y.

(** [String(String&& other)]: [this] is the object under construction. *)
Definition move_construct (o : Objects) (this other : nat) : Objects :=
  let o := set_m_ptr o this (m_ptr (o other)) in
  let o := set_m_length o this (m_length (o other)) in
  let o := set_m_ptr o other 0 in
  set_m_length o other 0.

(** [String& operator=(String&& other)]. *)
Definition move_assign (o : Objects) (this other : nat) : Objects :=
  if negb (Nat.eqb other this) then
    let o := set_m_ptr o this (m_ptr (o other)) in
    let o := set_m_ptr o other 0 in
    let o := set_m_length o this (m_length (o other)) in
    set_m_length o other 0
  else o.

(** ** The standard lexicographic comparison

    The ordering of [std::basic_string::compare]: character-wise over the
    shared prefix, the shorter sequence first when one is a prefix of the
    other. *)
Fixpoint lexicographic_compare (a b : list wchar_t) : comparison :=
  match a, b with
  | [], [] => Eq
  | [], _ :: _ => Lt
  | _ :: _, [] => Gt
  | x :: a', y :: b' =>
      match x ?= y with
      | Eq => lexicographic_compare a' b'
      | c => c
      end
  end.

Definition sign_of (c : comparison) : Z :=
  match c with Lt => -1 | Eq => 0 | Gt => 1 end.

(** ** The memory provider

    [Allocator::Allocate] is [malloc] and [Allocator::Free] is [free].  The
    provider's state is the list of live blocks (base address, size in
    bytes); which address [malloc] hands out for a request is its own
    business, so it is a parameter [malloc] of the development, with [0]
    standing for a failed request. *)

Definition Block : Type := (Z * Z)%type.

Definition Provider : Type := list Block -> Z -> Z.

Definition Allocate (malloc : Provider) (live : list Block) (cbSize : Z)
  : Z * list Block :=
  let p := malloc live cbSize in
  if p =? 0 then (0, live) else (p, (p, cbSize) :: live).

Definition Free (live : list Block) (ptr : Z) : list Block :=
  filter (fun b => negb (fst b =? ptr)) live.

(** A block returned by [malloc] overlaps no live block. *)
Definition provider_fresh (malloc : Provider) : Prop :=
  forall live cbSize b n,
    malloc live cbSize <> 0 ->
    In (b, n) live ->
    malloc live cbSize + cbSize <= b \/ b + n <= malloc live cbSize.

(** Two providers to run the model with: one that places every block
    above all live ones, and one that is out of memory. *)
Definition bump_malloc : Provider :=
  fun live _ => fold_right (fun b acc => Z.max (fst b + snd b) acc) 4096 live.

Definition exhausted_malloc : Provider := fun _ _ => 0.

(** ** The Allocator class *)

(** A [ChunkHeader*] together with the header it points to. *)
Record ChunkHeader : Type := mkChunk {
  chunk_addr  : Z;   (* the pointer kept in m_chunks *)
  SizeInBytes : Z    (* pNewChunk->SizeInBytes       *)
}.

Record Allocator : Type := mkAllocator {
  m_pNext  : Z;                  (* wchar_t* m_pNext{}   *)
  m_pLimit : Z;                  (* wchar_t* m_pLimit{}  *)
  m_chunks : list ChunkHeader    (* std::vector<ChunkHeader*> m_chunks{} *)
}.

(** [Allocator() = default]. *)
Definition Allocator_new : Allocator := mkAllocator 0 0 [].

(** What a call works on: the allocator object, the provider's live
    blocks and the character memory. *)
Record World : Type := mkWorld {
  pool  : Allocator;
  live  : list Block;
  chars : Memory
}.

(** The two [throw] sites of [AllocMemory]; both throw a
    [std::bad_alloc]. *)
Inductive bad_alloc : Type :=
  | TooLong        (* throw std::bad_alloc()  after the length check *)
  | OutOfMemory.   (* throw outOfMemory       after a failed Allocate *)

Inductive outcome (A : Type) : Type :=
  | Return (a : A)
  | Throw (e : bad_alloc)
  | Diverge.        (* the recursion budget of the model ran out *)

Arguments Return {A} a.
Arguments Throw {A} e.
Arguments Diverge {A}.

Section AllocatorClass.

Variable P : Platform.
Variable malloc : Provider.

Let wsz : Z := sizeof_wchar_t P.
Let hdr : Z := sizeof_ChunkHeader P.

(** [void Clear()]. *)
Definition Clear (w : World) : World :=
  let live' :=
    fold_left (fun lv pChunk => Free lv (chunk_addr pChunk))
              (m_chunks (pool w)) (live w) in
  mkWorld (mkAllocator 0 0 []) live' (chars w).

(** The size of the chunk requested for [length] slots. *)
Definition chunk_size_for (length : Z) : Z :=
  let chunkSizeInBytes := size_t_wrap P (length * wsz + hdr) in
  if chunkSizeInBytes <? kMinChunkSizeInBytes
  then kMinChunkSizeInBytes
  else chunkSizeInBytes.

(** The test [m_pNext + length <= m_pLimit], for a sum that stays inside
    the address space; [Exact.fits] below computes it at the width of a
    pointer. *)
Definition fits (a : Allocator) (length : Z) : bool :=
  m_pNext a + length * wsz <=? m_pLimit a.

(** [wchar_t* AllocMemory(size_t length)] on the calls where
    [m_chunks.push_back] returns, the [SizeInBytes] field of a new chunk
    not being part of [chars]; [fuel] bounds the number of nested
    invocations.  [Exact.AllocMemory] below has the throwing [push_back]
    and the store to the field, and [granted_path_agrees] relates the
    two. *)
Fixpoint AllocMemory (fuel : nat) (length : Z) (w : World)
  : outcome Z * World :=
  match fuel with
  | O => (Diverge, w)
  | S fuel' =>
      let a := pool w in
      let ptr := m_pNext a in
      if fits a length then
        (Return ptr,
         mkWorld (mkAllocator (m_pNext a + length * wsz) (m_pLimit a)
                              (m_chunks a))
                 (live w) (chars w))
      else if length >? kMaxStringLength then (Throw TooLong, w)
      else
        let chunkSizeInBytes := chunk_size_for length in
        let (pChunkStart, live') := Allocate malloc (live w) chunkSizeInBytes in
        if pChunkStart =? 0 then (Throw OutOfMemory, w)
        else
          let pLimit := pChunkStart + chunkSizeInBytes in
          let pNewChunk := mkChunk pChunkStart chunkSizeInBytes in
          let pNext := pChunkStart + hdr in
          AllocMemory fuel' length
            (mkWorld (mkAllocator pNext pLimit (m_chunks a ++ [pNewChunk]))
                     live' (chars w))
  end.

(** [wmemcpy(dest, src, n)]. *)
Fixpoint wmemcpy (m : Memory) (dest : Z) (src : list wchar_t) (n : nat)
  : Memory :=
  match n, src with
  | S k, c :: src' => wmemcpy (store m dest c) (dest + wsz) src' k
  | _, _ => m
  end.

(** [String AllocString(const wchar_t* start, const wchar_t* finish)],
    with [s] the characters of [[start, finish)]. *)
Definition AllocString (fuel : nat) (s : list wchar_t) (w : World)
  : outcome String * World :=
  let length := Z.of_nat (List.length s) in
  let lengthWithNul := size_t_wrap P (length + 1) in
  match AllocMemory fuel lengthWithNul w with
  | (Return ptr, w1) =>
      let m1 := wmemcpy (chars w1) ptr s (Z.to_nat length) in
      let m2 := store m1 (ptr + length * wsz) 0 in
      (Return (mkString ptr length), mkWorld (pool w1) (live w1) m2)
  | (Throw e, w1) => (Throw e, w1)
  | (Diverge, w1) => (Diverge, w1)
  end.

(** The loop of the benchmark that fills a vector of handles:
    [for (const auto& s : shuffled_ptrs) pool.push_back(alloc.AllocString(s))]. *)
Fixpoint AllocStrings (fuel : nat) (ss : list (list wchar_t)) (w : World)
  : outcome (list String) * World :=
  match ss with
  | [] => (Return [], w)
  | s :: ss' =>
      match AllocString fuel s w with
      | (Return h, w1) =>
          match AllocStrings fuel ss' w1 with
          | (Return hs, w2) => (Return (h :: hs), w2)
          | (Throw e, w2) => (Throw e, w2)
          | (Diverge, w2) => (Diverge, w2)
          end
      | (Throw e, w1) => (Throw e, w1)
      | (Diverge, w1) => (Diverge, w1)
      end
  end.

(** The two state changes of [AllocMemory]: handing out [length] slots
    of the active chunk, and making a new chunk the active one. *)
Definition carved (w : World) (length : Z) : World :=
  mkWorld (mkAllocator (m_pNext (pool w) + length * wsz) (m_pLimit (pool w))
                       (m_chunks (pool w)))
          (live w) (chars w).

Definition grown (w : World) (length : Z) : World :=
  let cb := chunk_size_for length in
  let p := malloc (live w) cb in
  mkWorld (mkAllocator (p + hdr) (p + cb) (m_chunks (pool w) ++ [mkChunk p cb]))
          ((p, cb) :: live w) (chars w).

(** *** Reachable states and what they maintain *)

(** Worlds an allocator object can be in: freshly constructed, and then
    after any number of [AllocString] and [Clear] calls.  A call is given
    a budget of at least two invocations of [AllocMemory], which is all
    it ever uses. *)
Inductive reachable : World -> Prop :=
  | reach_new : forall lv m, reachable (mkWorld Allocator_new lv m)
  | reach_AllocString : forall fuel s w,
      (2 <= fuel)%nat -> reachable w ->
      reachable (snd (AllocString fuel s w))
  | reach_Clear : forall w, reachable w -> reachable (Clear w).

(** The active chunk frames the free region, at least one slot of it has
    been handed out, and every owned chunk is a live block. *)
Definition active_chunk (a : Allocator) (c : ChunkHeader) : Prop :=
  (exists cs, m_chunks a = cs ++ [c]) /\
  chunk_addr c + hdr + wsz <= m_pNext a /\
  m_pNext a <= m_pLimit a /\
  m_pLimit a = chunk_addr c + SizeInBytes c /\
  SizeInBytes c <= kMaxStringLength * wsz + hdr.

Definition pool_inv (w : World) : Prop :=
  (pool w = Allocator_new \/ exists c, active_chunk (pool w) c) /\
  Forall (fun c => In (chunk_addr c, SizeInBytes c) (live w))
         (m_chunks (pool w)).

(** An address that holds handed-out data: inside an owned chunk and not
    in the free region [[m_pNext, m_pLimit)]. *)
Definition handed_out (a : Allocator) (addr : Z) : Prop :=
  (exists c, In c (m_chunks a) /\
             chunk_addr c <= addr < chunk_addr c + SizeInBytes c) /\
  ~ (m_pNext a <= addr < m_pLimit a).

(** Handle [h] designates the characters [s] in world [w]. *)
Definition designates (w : World) (h : String) (s : list wchar_t) : Prop :=
  m_length h = Z.of_nat (List.length s) /\
  read_chars P (chars w) (m_ptr h) (List.length s) = s /\
  forall i, 0 <= i < Z.of_nat (List.length s) ->
            handed_out (pool w) (m_ptr h + i * wsz).

End AllocatorClass.

(** A world to run the model in. *)
Definition empty_world : World := mkWorld Allocator_new [] (fun _ => 0).

(** A sequence of exactly [kMaxStringLength] characters. *)
Definition ceiling_string : list wchar_t :=
  repeat 97 (Z.to_nat kMaxStringLength).

(** ** The rest of the String class *)

(** What [Str()] returns: a pointer into the pool, or the address of the
    handle's own [m_nul] member. *)
Inductive StrPtr : Type :=
  | InPool (addr : Z)
  | OwnNul.

Section StringClassRest.

Variable P : Platform.

Let wsz : Z := sizeof_wchar_t P.

(** [const wchar_t* Str() const noexcept]. *)
Definition Str (s : String) : StrPtr :=
  if negb (IsEmpty s) then InPool (m_ptr s) else OwnNul.

(** Reading the character [i] slots behind such a pointer.  [m_nul] is a
    single [wchar_t], initialised to zero; behind it there is nothing to
    read. *)
Definition load (m : Memory) (q : StrPtr) (i : Z) : option wchar_t :=
  match q with
  | InPool addr => Some (m (addr + i * wsz))
  | OwnNul => if i =? 0 then Some 0 else None
  end.

(** [std::wstring(q, n)], the conversion the benchmark's sanity check
    uses on [Str()] and [Length()]. *)
Fixpoint wstring_from (m : Memory) (q : StrPtr) (i : Z) (n : nat)
  : option (list wchar_t) :=
  match n with
  | O => Some []
  | S k =>
      match load m q i, wstring_from m q (i + 1) k with
      | Some c, Some t => Some (c :: t)
      | _, _ => None
      end
  end.

Definition op_ne (m : Memory) (a b : String) : bool :=
  negb (Compare P m a b =? 0).
Definition op_le (m : Memory) (a b : String) : bool := Compare P m a b <=? 0.
Definition op_ge (m : Memory) (a b : String) : bool := Compare P m a b >=? 0.

End StringClassRest.

(** [String(const String& other) = default]: member-wise copy into the
    object under construction.  (The defaulted copy assignment is
    deleted, the class having the [const] member [m_nul].) *)
Definition copy_construct (o : Objects) (this other : nat) : Objects :=
  let o := set_m_ptr o this (m_ptr (o other)) in
  set_m_length o this (m_length (o other)).

(** [friend void swap(String& a, String& b)]: [std::swap] on the pointer
    members, then on the length members; [m_nul] is not swapped. *)
Definition swap (o : Objects) (a b : nat) : Objects :=
  let tmp := m_ptr (o a) in
  let o := set_m_ptr o a (m_ptr (o b)) in
  let o := set_m_ptr o b tmp in
  let tmp := m_length (o a) in
  let o := set_m_length o a (m_length (o b)) in
  set_m_length o b tmp.

(** ** The rest of the Allocator class *)

(** [wcslen(ptr)], on the characters found from [ptr] on: the number of
    characters before the first NUL.  The caller has to pass a sequence
    that contains one. *)
Fixpoint wcslen (src : list wchar_t) : nat :=
  match src with
  | [] => O
  | c :: src' => if c =? 0 then O else S (wcslen src')
  end.

(** [std::wstring::c_str()]: the characters of the string and a NUL
    behind them. *)
Definition c_str (s : list wchar_t) : list wchar_t := s ++ [0].

Definition block_of (c : ChunkHeader) : Block := (chunk_addr c, SizeInBytes c).

(** The calls a user can make on an allocator object. *)
Inductive Call : Type :=
  | CallAllocString (s : list wchar_t)
  | CallAllocString_sz (src : list wchar_t)
  | CallClear.

Section AllocatorClassRest.

Variable P : Platform.
Variable malloc : Provider.

Let wsz : Z := sizeof_wchar_t P.

(** [String AllocString(const wchar_t* ptr)]. *)
Definition AllocString_sz (fuel : nat) (src : list wchar_t) (w : World)
  : outcome String * World :=
  AllocString P malloc fuel (firstn (wcslen src) src) w.

(** The loop of the benchmark as it is written, over C string pointers:
    [for (const auto& s : shuffled_ptrs) pool1.push_back(poolAlloc1.AllocString(s))]. *)
Fixpoint fill_pool (fuel : nat) (ptrs : list (list wchar_t)) (w : World)
  : outcome (list String) * World :=
  match ptrs with
  | [] => (Return [], w)
  | src :: ptrs' =>
      match AllocString_sz fuel src w with
      | (Return h, w1) =>
          match fill_pool fuel ptrs' w1 with
          | (Return hs, w2) => (Return (h :: hs), w2)
          | (Throw e, w2) => (Throw e, w2)
          | (Diverge, w2) => (Diverge, w2)
          end
      | (Throw e, w1) => (Throw e, w1)
      | (Diverge, w1) => (Diverge, w1)
      end
  end.

(** [~Allocator() { Clear(); }]. *)
Definition Allocator_destroy (w : World) : World := Clear w.

(** A sequence of calls on one allocator; a thrown exception is caught
    by the caller, who carries on. *)
Definition do_call (fuel : nat) (w : World) (c : Call) : World :=
  match c with
  | CallAllocString s => snd (AllocString P malloc fuel s w)
  | CallAllocString_sz src => snd (AllocString_sz fuel src w)
  | CallClear => Clear w
  end.

Definition do_calls (fuel : nat) (cs : list Call) (w : World) : World :=
  fold_left (do_call fuel) cs w.

(** The slots a batch of strings takes, terminators included. *)
Fixpoint slots_of (ss : list (list wchar_t)) : Z :=
  match ss with
  | [] => 0
  | s :: ss' => (Z.of_nat (List.length s) + 1) + slots_of ss'
  end.



(** Where a batch of strings lands when it is carved back to back from
    address [p]. *)
Fixpoint layout (p : Z) (ss : list (list wchar_t)) : list String :=
  match ss with
  | [] => []
  | s :: ss' =>
      mkString p (Z.of_nat (List.length s))
      :: layout (p + (Z.of_nat (List.length s) + 1) * wsz) ss'
  end.

(** The provider's live blocks are the allocator's chunks, newest first,
    on top of the blocks [lv0] that were live before the allocator made
    its first request. *)
Definition owns_on_top_of (lv0 : list Block) (w : World) : Prop :=
  live w = map block_of (rev (m_chunks (pool w))) ++ lv0 /\
  Forall (fun c => ~ In (chunk_addr c) (map fst lv0)) (m_chunks (pool w)).

End AllocatorClassRest.

(** ** The allocator with everything that can go wrong

    The definitions above follow a call on which the chunk vector can
    grow, with pointers as unbounded addresses.  The module below embeds
    [AllocMemory] and its callers once more with what those leave out:
    [m_chunks.push_back] throws [std::bad_alloc] when the vector cannot
    grow, which happens after [m_pLimit], the header and [m_pNext] have
    been written; the header store changes the memory at the start of the
    new block; and pointer sums are computed at the width of a pointer
    (that of [size_t] on the targets of [platform_ok]). *)

Module Exact.

(** Whether [push_back] onto the given vector succeeds. *)
Definition VectorOracle : Type := list ChunkHeader -> bool.

(** What the stored [size_t] value [v] reads as when the memory [k] bytes
    into it is read as a [wchar_t]. *)
Definition SizeImage : Type := Z -> Z -> wchar_t.

(** The places a call can throw from. *)
Inductive ThrowSite : Type :=
  | AtLengthCheck   (* throw std::bad_alloc()   line 348 *)
  | AtAllocate      (* throw outOfMemory        line 363 *)
  | AtPushBack.     (* m_chunks.push_back(...)  line 378 *)

Inductive result (A : Type) : Type :=
  | Returned (a : A)
  | Thrown (site : ThrowSite)
  | OutOfBudget.    (* the recursion budget of the model ran out *)

Arguments Returned {A} a.
Arguments Thrown {A} site.
Arguments OutOfBudget {A}.

(** A block the provider returns lies inside the address space. *)
Definition provider_in_range (P : Platform) (malloc : Provider) : Prop :=
  forall lv cb,
    malloc lv cb <> 0 ->
    0 < malloc lv cb /\ malloc lv cb + cb < SIZE_MODULUS P.

Section Code.

Variable P : Platform.
Variable malloc : Provider.
Variable push_back_ok : VectorOracle.
Variable size_image : SizeImage.

Let wsz : Z := sizeof_wchar_t P.
Let hdr : Z := sizeof_ChunkHeader P.

(** Pointer plus a number of bytes. *)
Definition ptr_add (p n : Z) : Z := (p + n) mod SIZE_MODULUS P.

(** The test [m_pNext + length <= m_pLimit]. *)
Definition fits (a : Allocator) (length : Z) : bool :=
  ptr_add (m_pNext a) (length * wsz) <=? m_pLimit a.

(** [pNewChunk->SizeInBytes = chunkSizeInBytes]. *)
Definition store_size (m : Memory) (addr value : Z) : Memory :=
  fun a =>
    if (addr <=? a) && (a <? addr + sizeof_size_t P)
    then size_image value (a - addr)
    else m a.

(** The three state changes of [AllocMemory]. *)
Definition carved (w : World) (length : Z) : World :=
  mkWorld (mkAllocator (ptr_add (m_pNext (pool w)) (length * wsz))
                       (m_pLimit (pool w)) (m_chunks (pool w)))
          (live w) (chars w).

(** Lines 367 to 374: limit, header and cursor are set to the new block. *)
Definition stranded (w : World) (length : Z) : World :=
  let cb := chunk_size_for P length in
  let p := malloc (live w) cb in
  mkWorld (mkAllocator (ptr_add p hdr) (ptr_add p cb) (m_chunks (pool w)))
          ((p, cb) :: live w) (store_size (chars w) p cb).

(** Line 378 on top of that: the chunk is recorded. *)
Definition grown (w : World) (length : Z) : World :=
  let cb := chunk_size_for P length in
  let p := malloc (live w) cb in
  mkWorld (mkAllocator (ptr_add p hdr) (ptr_add p cb)
                       (m_chunks (pool w) ++ [mkChunk p cb]))
          ((p, cb) :: live w) (store_size (chars w) p cb).

(** [wchar_t* AllocMemory(size_t length)]. *)
Fixpoint AllocMemory (fuel : nat) (length : Z) (w : World)
  : result Z * World :=
  match fuel with
  | O => (OutOfBudget, w)
  | S fuel' =>
      let a := pool w in
      let ptr := m_pNext a in
      if fits a length then
        (Returned ptr,
         mkWorld (mkAllocator (ptr_add (m_pNext a) (length * wsz))
                              (m_pLimit a) (m_chunks a))
                 (live w) (chars w))
      else if length >? kMaxStringLength then (Thrown AtLengthCheck, w)
      else
        let chunkSizeInBytes := chunk_size_for P length in
        let (pChunkStart, live') := Allocate malloc (live w) chunkSizeInBytes in
        if pChunkStart =? 0 then (Thrown AtAllocate, w)
        else
          let pLimit := ptr_add pChunkStart chunkSizeInBytes in
          let pNewChunk := mkChunk pChunkStart chunkSizeInBytes in
          let chars' := store_size (chars w) pChunkStart chunkSizeInBytes in
          let pNext := ptr_add pChunkStart hdr in
          if push_back_ok (m_chunks a) then
            AllocMemory fuel' length
              (mkWorld (mkAllocator pNext pLimit (m_chunks a ++ [pNewChunk]))
                       live' chars')
          else
            (Thrown AtPushBack,
             mkWorld (mkAllocator pNext pLimit (m_chunks a)) live' chars')
  end.

(** [wmemcpy(dest, src, n)], the destination advancing as a pointer. *)
Fixpoint wmemcpy (m : Memory) (dest : Z) (src : list wchar_t) (n : nat)
  : Memory :=
  match n, src with
  | S k, c :: src' => wmemcpy (store m dest c) (ptr_add dest wsz) src' k
  | _, _ => m
  end.

(** [String AllocString(const wchar_t* start, const wchar_t* finish)]. *)
Definition AllocString (fuel : nat) (s : list wchar_t) (w : World)
  : result String * World :=
  let length := Z.of_nat (List.length s) in
  let lengthWithNul := size_t_wrap P (length + 1) in
  match AllocMemory fuel lengthWithNul w with
  | (Returned ptr, w1) =>
      let m1 := wmemcpy (chars w1) ptr s (Z.to_nat length) in
      let m2 := store m1 (ptr_add ptr (length * wsz)) 0 in
      (Returned (mkString ptr length), mkWorld (pool w1) (live w1) m2)
  | (Thrown site, w1) => (Thrown site, w1)
  | (OutOfBudget, w1) => (OutOfBudget, w1)
  end.

(** The state change of [AllocString] itself: the copy to [ptr] and the
    terminator behind it. *)
Definition written (w1 : World) (ptr : Z) (s : list wchar_t) : World :=
  mkWorld (pool w1) (live w1)
    (store (wmemcpy (chars w1) ptr s (List.length s))
           (ptr_add ptr (Z.of_nat (List.length s) * wsz)) 0).

(** [String AllocString(const wchar_t* ptr)]. *)
Definition AllocString_sz (fuel : nat) (src : list wchar_t) (w : World)
  : result String * World :=
  AllocString fuel (firstn (wcslen src) src) w.

(** A sequence of calls on one allocator; a thrown exception is caught
    by the caller, who carries on. *)
Definition do_call (fuel : nat) (w : World) (c : Call) : World :=
  match c with
  | CallAllocString s => snd (AllocString fuel s w)
  | CallAllocString_sz src => snd (AllocString_sz fuel src w)
  | CallClear => Clear w
  end.

Definition do_calls (fuel : nat) (cs : list Call) (w : World) : World :=
  fold_left (do_call fuel) cs w.

(** The pointer sum of the carve test stays inside the address space for
    the sequence [s]. *)
Definition no_wrap (w : World) (s : list wchar_t) : Prop :=
  m_pNext (pool w) + (Z.of_nat (List.length s) + 1) * wsz < SIZE_MODULUS P.

(** Worlds an allocator object can be in: freshly constructed, and then
    after any number of [AllocString] and [Clear] calls, returning or
    throwing, none of which let the pointer sum wrap. *)
Inductive reachable : World -> Prop :=
  | reach_new : forall lv m, reachable (mkWorld Allocator_new lv m)
  | reach_AllocString : forall fuel s w,
      (2 <= fuel)%nat -> reachable w -> no_wrap w s ->
      reachable (snd (AllocString fuel s w))
  | reach_Clear : forall w, reachable w -> reachable (Clear w).

(** Cursor and limit are null, or they lie in a live block behind its
    header, never more than [kMaxStringLength] slots apart. *)
Definition pool_ok (w : World) : Prop :=
  (m_pNext (pool w) = 0 /\ m_pLimit (pool w) = 0) \/
  (exists b n,
     In (b, n) (live w) /\
     0 < b /\
     b + hdr <= m_pNext (pool w) /\
     m_pNext (pool w) <= m_pLimit (pool w) /\
     m_pLimit (pool w) = b + n /\
     b + n < SIZE_MODULUS P /\
     n <= kMaxStringLength * wsz + hdr).

End Code.

(** Oracles to run the code with. *)
Definition vector_grows : VectorOracle := fun _ => true.
Definition vector_exhausted : VectorOracle := fun _ => false.

(** The image of a little-endian store. *)
Definition little_endian (P : Platform) : SizeImage :=
  fun v k => (v / 2 ^ (8 * k)) mod 2 ^ (8 * sizeof_wchar_t P).

(** A provider that places every block above all live ones while the
    address space lasts. *)
Definition bounded_malloc (P : Platform) : Provider :=
  fun lv cb =>
    let p := bump_malloc lv cb in
    if p + cb <? SIZE_MODULUS P then p else 0.

End Exact.

(** * Properties of the String class *)

Section StringFacts.

Variable P : Platform.

Lemma ToStdString_read (m : Memory) (h : String) :
  ToStdString P m h = read_chars P m (m_ptr h) (Z.to_nat (m_length h)).
Proof.
  unfold ToStdString, IsEmpty.
  destruct (m_length h =? 0) eqn:E; simpl; [|reflexivity].
  apply Z.eqb_eq in E. rewrite E. reflexivity.
Qed.

Lemma wmemcmp_range (m : Memory) (n : nat) :
  forall a b, wmemcmp P m a b n = -1 \/ wmemcmp P m a b n = 0 \/
              wmemcmp P m a b n = 1.
Proof.
  induction n as [|n IH]; intros a b; simpl; [now right; left|].
  destruct (m a <? m b); [now left|].
  destruct (m b <? m a); [now right; right|].
  apply IH.
Qed.

(** [wmemcmp] over the shared prefix, followed by the length tie-break,
    is the lexicographic comparison of the two character sequences. *)
Lemma wmemcmp_lexicographic (m : Memory) (n1 : nat) :
  forall n2 a b,
    sign_of (lexicographic_compare (read_chars P m a n1) (read_chars P m b n2))
    = if wmemcmp P m a b (Nat.min n1 n2) =? 0
      then sign_of (Nat.compare n1 n2)
      else wmemcmp P m a b (Nat.min n1 n2).
Proof.
  induction n1 as [|n1 IH]; intros [|n2] a b; simpl; try reflexivity.
  destruct (Z.compare_spec (m a) (m b)) as [E|L|G].
  - rewrite E, Z.ltb_irrefl. apply IH.
  - apply Z.ltb_lt in L. rewrite L. reflexivity.
  - assert (H1 : (m a <? m b) = false) by (apply Z.ltb_ge; lia).
    apply Z.ltb_lt in G. rewrite H1, G. reflexivity.
Qed.

Lemma Compare_lexicographic (m : Memory) (h1 h2 : String) :
  0 <= m_length h1 -> 0 <= m_length h2 ->
  Z.sgn (Compare P m h1 h2)
  = sign_of (lexicographic_compare (ToStdString P m h1) (ToStdString P m h2)).
Proof.
  intros H1 H2. rewrite !ToStdString_read, wmemcmp_lexicographic.
  unfold Compare.
  assert (Hmin : Z.to_nat (if m_length h1 <? m_length h2
                           then m_length h1 else m_length h2)
                 = Nat.min (Z.to_nat (m_length h1)) (Z.to_nat (m_length h2))).
  { destruct (m_length h1 <? m_length h2) eqn:E;
      [apply Z.ltb_lt in E | apply Z.ltb_ge in E]; lia. }
  rewrite Hmin.
  set (r := wmemcmp P m (m_ptr h1) (m_ptr h2)
              (Nat.min (Z.to_nat (m_length h1)) (Z.to_nat (m_length h2)))).
  destruct (wmemcmp_range m
              (Nat.min (Z.to_nat (m_length h1)) (Z.to_nat (m_length h2)))
              (m_ptr h1) (m_ptr h2)) as [E|[E|E]];
    fold r in E; rewrite E; simpl; try reflexivity.
  destruct (Nat.compare_spec (Z.to_nat (m_length h1)) (Z.to_nat (m_length h2)))
    as [Q|Q|Q]; simpl.
  - assert (m_length h1 = m_length h2) by lia.
    replace (m_length h1 <? m_length h2) with false by (symmetry; apply Z.ltb_ge; lia).
    replace (m_length h1 >? m_length h2) with false
      by (symmetry; rewrite Z.gtb_ltb; apply Z.ltb_ge; lia).
    reflexivity.
  - replace (m_length h1 <? m_length h2) with true by (symmetry; apply Z.ltb_lt; lia).
    reflexivity.
  - replace (m_length h1 <? m_length h2) with false by (symmetry; apply Z.ltb_ge; lia).
    replace (m_length h1 >? m_length h2) with true
      by (symmetry; rewrite Z.gtb_ltb; apply Z.ltb_lt; lia).
    reflexivity.
Qed.

End StringFacts.

(** ** Moving handles *)

(** C7. After move-constructing or move-assigning a handle [other] into a
    distinct object [this], [other] is an empty handle with a null
    pointer (it reports [IsEmpty], length 0 and converts to the empty
    string), and [this] holds the pointer and length [other] had. *)
Theorem move_leaves_source_empty (P : Platform) (m : Memory) (o : Objects)
    (this other : nat) :
  other <> this ->
  forall o' : Objects,
    o' = move_construct o this other \/ o' = move_assign o this other ->
    o' this = o other /\
    m_ptr (o' other) = 0 /\
    Length (o' other) = 0 /\
    IsEmpty (o' other) = true /\
    ToStdString P m (o' other) = [] /\
    o' other = String_default.
Proof.
  intros Hne o' Ho'.
  assert (E1 : Nat.eqb other this = false) by now apply Nat.eqb_neq.
  assert (E2 : Nat.eqb this other = false) by (apply Nat.eqb_neq; congruence).
  destruct Ho' as [-> | ->];
    unfold move_construct, move_assign, set_m_ptr, set_m_length,
      ToStdString, IsEmpty, Length, String_default;
    rewrite ?E1; simpl; rewrite ?Nat.eqb_refl, ?E1, ?E2; simpl;
    rewrite ?Nat.eqb_refl, ?E1, ?E2; simpl;
    destruct (o other) as [p l]; simpl; repeat split; reflexivity.
Qed.

Lemma move_leaves_source_empty_witness :
  let o : Objects :=
    fun x => if Nat.eqb x 1 then mkString 4112 5 else String_default in
  1%nat <> 2%nat /\
  (move_construct o 2 1) 2%nat = mkString 4112 5 /\
  IsEmpty ((move_assign o 2 1) 1%nat) = true.
Proof.
  intros o.
  assert (Hne : 1%nat <> 2%nat) by (intro H; discriminate H).
  split; [exact Hne|]. split.
  - exact (proj1 (move_leaves_source_empty lp64 (fun _ => 0) o 2 1 Hne
                    _ (or_introl eq_refl))).
  - exact (proj1 (proj2 (proj2 (proj2
             (move_leaves_source_empty lp64 (fun _ => 0) o 2 1 Hne
                _ (or_intror eq_refl)))))).
Defined.

(** C10. Move-assigning a handle to itself transfers nothing: the store
    of handles is left as it was, so the handle keeps its pointer and its
    length. *)
Theorem move_assign_self (o : Objects) (this : nat) :
  move_assign o this this = o /\
  m_ptr (move_assign o this this this) = m_ptr (o this) /\
  m_length (move_assign o this this this) = m_length (o this).
Proof.
  unfold move_assign. rewrite Nat.eqb_refl. simpl. repeat split.
Qed.

(** * Properties of the Allocator class *)

Section PlatformFacts.

Variable P : Platform.
Hypothesis HP : platform_ok P.

Lemma wchar_size_cases : sizeof_wchar_t P = 2 \/ sizeof_wchar_t P = 4.
Proof. exact (proj1 HP). Qed.

Lemma header_size_cases : sizeof_ChunkHeader P = 8 \/ sizeof_ChunkHeader P = 16.
Proof.
  destruct P as [ws ss]. destruct HP as [[Hw|Hw] [Hs|Hs]]; simpl in *; subst;
    vm_compute; auto.
Qed.

Lemma size_modulus_large : 2 ^ 32 <= SIZE_MODULUS P.
Proof.
  unfold SIZE_MODULUS. destruct HP as [_ [Hs|Hs]]; rewrite Hs.
  - change (8 * 4) with 32. lia.
  - change (8 * 8) with 64. apply Z.pow_le_mono_r; lia.
Qed.

Lemma size_t_wrap_small (n : Z) :
  0 <= n < 2 ^ 32 -> size_t_wrap P n = n.
Proof.
  intros Hn. unfold size_t_wrap. apply Z.mod_small.
  pose proof size_modulus_large. lia.
Qed.

Lemma size_t_wrap_nonneg (n : Z) : 0 <= size_t_wrap P n.
Proof.
  unfold size_t_wrap. pose proof size_modulus_large.
  apply Z.mod_pos_bound. lia.
Qed.

End PlatformFacts.

Section AllocMemoryFacts.

Variable P : Platform.
Variable malloc : Provider.
Hypothesis HP : platform_ok P.

Local Abbreviation wsz := (sizeof_wchar_t P).
Local Abbreviation hdr := (sizeof_ChunkHeader P).

Local Ltac sizes :=
  pose proof (wchar_size_cases P HP);
  pose proof (header_size_cases P HP);
  unfold kMaxStringLength, kMinChunkSizeInBytes in *.

(** For a request within the ceiling the chunk size does not wrap: it is
    the larger of the minimum chunk size and the bytes the request needs
    after the header. *)
Lemma chunk_size_for_max (length : Z) :
  0 <= length <= kMaxStringLength ->
  chunk_size_for P length = Z.max kMinChunkSizeInBytes (length * wsz + hdr).
Proof.
  intros HL. unfold chunk_size_for.
  rewrite size_t_wrap_small by (trivial; sizes; nia).
  destruct (length * wsz + hdr <? kMinChunkSizeInBytes) eqn:E;
    [apply Z.ltb_lt in E | apply Z.ltb_ge in E]; lia.
Qed.

Lemma chunk_size_for_bounds (length : Z) :
  0 <= length <= kMaxStringLength ->
  length * wsz + hdr <= chunk_size_for P length /\
  kMinChunkSizeInBytes <= chunk_size_for P length /\
  chunk_size_for P length <= kMaxStringLength * wsz + hdr.
Proof.
  intros HL. rewrite chunk_size_for_max by assumption. sizes. nia.
Qed.

(** One invocation of [AllocMemory], with the nested one left folded. *)
Lemma AllocMemory_step (fuel : nat) (length : Z) (w : World) :
  AllocMemory P malloc (S fuel) length w =
  if fits P (pool w) length then (Return (m_pNext (pool w)), carved P w length)
  else if length >? kMaxStringLength then (Throw TooLong, w)
  else if malloc (live w) (chunk_size_for P length) =? 0
       then (Throw OutOfMemory, w)
       else AllocMemory P malloc fuel length (grown P malloc w length).
Proof.
  simpl. unfold Allocate, carved, grown.
  destruct (fits P (pool w) length); [reflexivity|].
  destruct (length >? kMaxStringLength); [reflexivity|].
  destruct (malloc (live w) (chunk_size_for P length) =? 0) eqn:E; simpl;
    rewrite ?E; reflexivity.
Qed.

(** The fresh chunk has room for the request it was created for. *)
Lemma grown_fits (length : Z) (w : World) :
  0 <= length <= kMaxStringLength ->
  fits P (pool (grown P malloc w length)) length = true.
Proof.
  intros HL. unfold fits, grown; simpl. apply Z.leb_le.
  pose proof (chunk_size_for_bounds length HL). lia.
Qed.

(** With a budget of two invocations [AllocMemory] has run to its end:
    it carves, or throws before touching anything, or grows once and
    carves from the fresh chunk. *)
Lemma AllocMemory_closed (fuel : nat) (length : Z) (w : World) :
  (2 <= fuel)%nat -> 0 <= length ->
  AllocMemory P malloc fuel length w =
  if fits P (pool w) length then (Return (m_pNext (pool w)), carved P w length)
  else if length >? kMaxStringLength then (Throw TooLong, w)
  else if malloc (live w) (chunk_size_for P length) =? 0
       then (Throw OutOfMemory, w)
       else (Return (malloc (live w) (chunk_size_for P length) + hdr),
             carved P (grown P malloc w length) length).
Proof.
  intros Hf HL. destruct fuel as [|[|fuel]]; try lia.
  rewrite AllocMemory_step.
  destruct (fits P (pool w) length); [reflexivity|].
  destruct (length >? kMaxStringLength) eqn:EL; [reflexivity|].
  destruct (malloc (live w) (chunk_size_for P length) =? 0); [reflexivity|].
  rewrite AllocMemory_step, grown_fits.
  - reflexivity.
  - rewrite Z.gtb_ltb in EL. apply Z.ltb_ge in EL. lia.
Qed.

End AllocMemoryFacts.

(** ** Character memory under [wmemcpy] *)

Section MemoryFacts.

Variable P : Platform.
Hypothesis HP : platform_ok P.

Local Abbreviation wsz := (sizeof_wchar_t P).

Lemma wchar_size_pos : 0 < wsz.
Proof. destruct (wchar_size_cases P HP); lia. Qed.

(** [wmemcpy] writes only inside the destination range. *)
Lemma wmemcpy_outside (src : list wchar_t) :
  forall n m dest a,
    a < dest \/ dest + Z.of_nat (List.length src) * wsz <= a ->
    wmemcpy P m dest src n a = m a.
Proof.
  pose proof wchar_size_pos as Hw.
  induction src as [|c src IH]; intros [|n] m dest a Ha; simpl;
    try reflexivity.
  rewrite IH.
  - unfold store. destruct (a =? dest) eqn:E; [|reflexivity].
    apply Z.eqb_eq in E. simpl List.length in Ha. lia.
  - simpl List.length in Ha. lia.
Qed.

(** Reading back what [wmemcpy] has just written. *)
Lemma read_chars_wmemcpy (src : list wchar_t) :
  forall m dest,
    read_chars P (wmemcpy P m dest src (List.length src)) dest
               (List.length src) = src.
Proof.
  pose proof wchar_size_pos as Hw.
  induction src as [|c src IH]; intros m dest; simpl; [reflexivity|].
  rewrite IH. f_equal.
  rewrite wmemcpy_outside by lia.
  unfold store. now rewrite Z.eqb_refl.
Qed.

(** [read_chars] looks only at the slots of its range. *)
Lemma read_chars_agree (n : nat) :
  forall m1 m2 ptr,
    (forall i, 0 <= i < Z.of_nat n -> m1 (ptr + i * wsz) = m2 (ptr + i * wsz)) ->
    read_chars P m1 ptr n = read_chars P m2 ptr n.
Proof.
  induction n as [|n IH]; intros m1 m2 ptr H; simpl; [reflexivity|].
  f_equal.
  - specialize (H 0). rewrite Z.mul_0_l, Z.add_0_r in H. apply H. lia.
  - apply IH. intros i Hi.
    replace (ptr + wsz + i * wsz) with (ptr + (i + 1) * wsz) by ring.
    apply H. lia.
Qed.

(** The memory [AllocString] leaves: the copy, then the terminator. *)
Lemma read_chars_allocated (src : list wchar_t) (m : Memory) (ptr : Z) :
  read_chars P
    (store (wmemcpy P m ptr src (List.length src))
           (ptr + Z.of_nat (List.length src) * wsz) 0)
    ptr (List.length src) = src.
Proof.
  pose proof wchar_size_pos as Hw.
  transitivity (read_chars P (wmemcpy P m ptr src (List.length src)) ptr
                  (List.length src)); [|apply read_chars_wmemcpy].
  apply read_chars_agree. intros i Hi. unfold store.
  destruct (ptr + i * wsz =? ptr + Z.of_nat (List.length src) * wsz) eqn:E;
    [|reflexivity].
  apply Z.eqb_eq in E. nia.
Qed.

End MemoryFacts.

(** ** AllocString in terms of AllocMemory *)

Section AllocStringFacts.

Variable P : Platform.
Variable malloc : Provider.
Hypothesis HP : platform_ok P.

Local Abbreviation wsz := (sizeof_wchar_t P).
Local Abbreviation hdr := (sizeof_ChunkHeader P).

(** The slots [AllocString] asks [AllocMemory] for. *)
Local Abbreviation slots s := (size_t_wrap P (Z.of_nat (List.length s) + 1)).

Lemma slots_exact (s : list wchar_t) :
  Z.of_nat (List.length s) + 1 < 2 ^ 32 ->
  slots s = Z.of_nat (List.length s) + 1.
Proof. intros H. apply size_t_wrap_small; [assumption|lia]. Qed.

Lemma AllocString_Return (fuel : nat) (s : list wchar_t) (w : World) (h : String) :
  fst (AllocString P malloc fuel s w) = Return h ->
  fst (AllocMemory P malloc fuel (slots s) w) = Return (m_ptr h) /\
  m_length h = Z.of_nat (List.length s) /\
  snd (AllocString P malloc fuel s w) =
    let w1 := snd (AllocMemory P malloc fuel (slots s) w) in
    mkWorld (pool w1) (live w1)
      (store (wmemcpy P (chars w1) (m_ptr h) s (List.length s))
             (m_ptr h + Z.of_nat (List.length s) * wsz) 0).
Proof.
  unfold AllocString.
  destruct (AllocMemory P malloc fuel (slots s) w) as [[ptr|e|] w1]; simpl;
    intros H; inversion H; subst; simpl.
  rewrite Nat2Z.id. auto.
Qed.

(** The outcome of [AllocString] follows that of [AllocMemory]. *)
Lemma AllocString_outcome (fuel : nat) (s : list wchar_t) (w : World) :
  match fst (AllocMemory P malloc fuel (slots s) w) with
  | Return ptr =>
      fst (AllocString P malloc fuel s w)
      = Return (mkString ptr (Z.of_nat (List.length s)))
  | Throw e =>
      AllocString P malloc fuel s w
      = (Throw e, snd (AllocMemory P malloc fuel (slots s) w))
  | Diverge => fst (AllocString P malloc fuel s w) = Diverge
  end.
Proof.
  unfold AllocString.
  destruct (AllocMemory P malloc fuel (slots s) w) as [[ptr|e|] w1];
    reflexivity.
Qed.

(** The allocator state after [AllocString] is the one [AllocMemory]
    leaves; only the character memory is written afterwards. *)
Lemma AllocString_pool (fuel : nat) (s : list wchar_t) (w : World) :
  pool (snd (AllocString P malloc fuel s w))
  = pool (snd (AllocMemory P malloc fuel (slots s) w)) /\
  live (snd (AllocString P malloc fuel s w))
  = live (snd (AllocMemory P malloc fuel (slots s) w)).
Proof.
  unfold AllocString.
  destruct (AllocMemory P malloc fuel (slots s) w) as [[ptr|e|] w1];
    split; reflexivity.
Qed.

(** What a returned handle reads back. *)
Lemma AllocString_reads_back (fuel : nat) (s : list wchar_t) (w : World)
    (h : String) :
  fst (AllocString P malloc fuel s w) = Return h ->
  ToStdString P (chars (snd (AllocString P malloc fuel s w))) h = s /\
  chars (snd (AllocString P malloc fuel s w)) (m_ptr h + m_length h * wsz) = 0.
Proof.
  intros H. apply AllocString_Return in H. destruct H as (_ & Hl & Hw).
  rewrite Hw, ToStdString_read, Hl, Nat2Z.id. simpl. split.
  - apply read_chars_allocated, HP.
  - unfold store. now rewrite Z.eqb_refl.
Qed.

(** With a budget of two invocations the call has run to its end, and a
    failed call has changed nothing. *)
Lemma AllocString_total (fuel : nat) (s : list wchar_t) (w : World) :
  (2 <= fuel)%nat ->
  (exists h, fst (AllocString P malloc fuel s w) = Return h) \/
  (exists e, AllocString P malloc fuel s w = (Throw e, w)).
Proof.
  intros Hf.
  pose proof (AllocString_outcome fuel s w) as Ho.
  rewrite (AllocMemory_closed P malloc HP fuel (slots s) w Hf
             (size_t_wrap_nonneg P HP _)) in Ho.
  destruct (fits P (pool w) (slots s)); simpl in Ho; [left; eauto|].
  destruct (slots s >? kMaxStringLength); simpl in Ho; [right; eauto|].
  destruct (malloc (live w) (chunk_size_for P (slots s)) =? 0); simpl in Ho;
    [right; eauto | left; eauto].
Qed.

End AllocStringFacts.

Lemma lp64_ok : platform_ok lp64.
Proof. split; right; reflexivity. Defined.

Lemma win64_ok : platform_ok win64.
Proof. split; [left | right]; reflexivity. Defined.

Lemma win32_ok : platform_ok win32.
Proof. split; left; reflexivity. Defined.



(** ** The invariant of reachable states *)

Section InvariantFacts.

Variable P : Platform.
Variable malloc : Provider.
Hypothesis HP : platform_ok P.

Local Abbreviation wsz := (sizeof_wchar_t P).
Local Abbreviation hdr := (sizeof_ChunkHeader P).

Local Ltac sizes :=
  pose proof (wchar_size_cases P HP);
  pose proof (header_size_cases P HP);
  unfold kMaxStringLength, kMinChunkSizeInBytes in *.

Lemma fits_true (a : Allocator) (length : Z) :
  fits P a length = true <-> m_pNext a + length * wsz <= m_pLimit a.
Proof. unfold fits. apply Z.leb_le. Qed.

Lemma fits_false (a : Allocator) (length : Z) :
  fits P a length = false <-> m_pLimit a < m_pNext a + length * wsz.
Proof. unfold fits. rewrite Z.leb_gt. reflexivity. Qed.

Lemma pool_inv_cursor (w : World) :
  pool_inv P w -> m_pNext (pool w) <= m_pLimit (pool w).
Proof.
  intros [[E|[c Hc]] _].
  - rewrite E. simpl. lia.
  - apply Hc.
Qed.

Lemma pool_inv_carved (w : World) (length : Z) :
  pool_inv P w -> 0 <= length -> fits P (pool w) length = true ->
  pool_inv P (carved P w length).
Proof.
  intros [Hshape Hlive] HL Hfit. apply fits_true in Hfit.
  split; [|exact Hlive].
  destruct Hshape as [E|[c (Hcs & Hlo & Hle & Hlim & Hsz)]].
  - left. unfold carved. rewrite E in *. simpl in *.
    assert (length = 0) by (sizes; nia). subst length. reflexivity.
  - right. exists c. unfold active_chunk, carved; simpl.
    repeat split; try assumption; sizes; nia.
Qed.

Lemma pool_inv_grown (w : World) (length : Z) :
  pool_inv P w -> 0 <= length <= kMaxStringLength ->
  fits P (pool w) length = false ->
  pool_inv P (carved P (grown P malloc w length) length).
Proof.
  intros Hinv HL Hfit. apply fits_false in Hfit.
  pose proof (pool_inv_cursor w Hinv) as Hcur.
  pose proof (chunk_size_for_bounds P HP length HL) as (Hb1 & Hb2 & Hb3).
  destruct Hinv as [_ Hlive].
  split.
  - right. eexists. unfold active_chunk, carved, grown; simpl.
    split; [eexists; reflexivity|]. simpl.
    repeat split; try assumption; sizes; nia.
  - unfold carved, grown; simpl. apply Forall_app. split.
    + eapply Forall_impl; [|exact Hlive]. intros c Hc. now right.
    + constructor; [now left|constructor].
Qed.

Lemma pool_inv_AllocMemory (fuel : nat) (length : Z) (w : World) :
  (2 <= fuel)%nat -> 0 <= length -> pool_inv P w ->
  pool_inv P (snd (AllocMemory P malloc fuel length w)).
Proof.
  intros Hf HL Hinv.
  rewrite (AllocMemory_closed P malloc HP fuel length w Hf HL).
  destruct (fits P (pool w) length) eqn:Hfit; simpl.
  - apply pool_inv_carved; assumption.
  - destruct (length >? kMaxStringLength) eqn:EL; simpl; [assumption|].
    destruct (malloc (live w) (chunk_size_for P length) =? 0); simpl;
      [assumption|].
    apply pool_inv_grown; try assumption.
    rewrite Z.gtb_ltb in EL. apply Z.ltb_ge in EL. lia.
Qed.

Lemma pool_inv_AllocString (fuel : nat) (s : list wchar_t) (w : World) :
  (2 <= fuel)%nat -> pool_inv P w ->
  pool_inv P (snd (AllocString P malloc fuel s w)).
Proof.
  intros Hf Hinv.
  pose proof (pool_inv_AllocMemory fuel _ w Hf
                (size_t_wrap_nonneg P HP (Z.of_nat (List.length s) + 1)) Hinv)
    as H.
  destruct (AllocString_pool P malloc fuel s w) as [Ep El].
  unfold pool_inv in *. rewrite Ep, El. exact H.
Qed.

Lemma pool_inv_Clear (w : World) : pool_inv P (Clear w).
Proof. split; [left; reflexivity | constructor]. Qed.

Lemma reachable_pool_inv (w : World) :
  reachable P malloc w -> pool_inv P w.
Proof.
  induction 1 as [lv m | fuel s w Hf _ IH | w _ _].
  - split; [left; reflexivity | constructor].
  - apply pool_inv_AllocString; assumption.
  - apply pool_inv_Clear.
Qed.

(** In a reachable state less than [kMaxStringLength] slots are free. *)
Lemma free_slots_bound (w : World) :
  pool_inv P w ->
  m_pLimit (pool w) - m_pNext (pool w) <= (kMaxStringLength - 1) * wsz.
Proof.
  pose proof (wchar_size_cases P HP).
  intros [[E|[c (Hcs & Hlo & Hle & Hlim & Hsz)]] _].
  - rewrite E. unfold Allocator_new, kMaxStringLength.
    cbn [m_pLimit m_pNext]. lia.
  - pose proof (header_size_cases P HP). unfold kMaxStringLength in *. nia.
Qed.

End InvariantFacts.



(** ** The four ways an AllocString call can go *)

Section AllocStringCases.

Variable P : Platform.
Variable malloc : Provider.
Hypothesis HP : platform_ok P.

Variable fuel : nat.
Hypothesis Hfuel : (2 <= fuel)%nat.

Variable s : list wchar_t.
Variable w : World.

Local Abbreviation wsz := (sizeof_wchar_t P).
Local Abbreviation hdr := (sizeof_ChunkHeader P).
Local Abbreviation len := (Z.of_nat (List.length s)).
Local Abbreviation slots := (size_t_wrap P (Z.of_nat (List.length s) + 1)).

Lemma AllocMemory_for_string :
  AllocMemory P malloc fuel slots w =
  if fits P (pool w) slots then (Return (m_pNext (pool w)), carved P w slots)
  else if slots >? kMaxStringLength then (Throw TooLong, w)
  else if malloc (live w) (chunk_size_for P slots) =? 0
       then (Throw OutOfMemory, w)
       else (Return (malloc (live w) (chunk_size_for P slots) + hdr),
             carved P (grown P malloc w slots) slots).
Proof.
  apply AllocMemory_closed; [exact HP | exact Hfuel |].
  apply size_t_wrap_nonneg, HP.
Qed.

Lemma AllocString_carves :
  fits P (pool w) slots = true ->
  fst (AllocString P malloc fuel s w) = Return (mkString (m_pNext (pool w)) len) /\
  pool (snd (AllocString P malloc fuel s w)) = pool (carved P w slots) /\
  live (snd (AllocString P malloc fuel s w)) = live w.
Proof.
  intros Hfit.
  pose proof (AllocString_outcome P malloc fuel s w) as Ho.
  destruct (AllocString_pool P malloc fuel s w) as [Ep El].
  rewrite AllocMemory_for_string, Hfit in Ho, Ep, El. simpl in *.
  auto.
Qed.

Lemma AllocString_grows :
  fits P (pool w) slots = false ->
  slots <= kMaxStringLength ->
  malloc (live w) (chunk_size_for P slots) <> 0 ->
  fst (AllocString P malloc fuel s w)
    = Return (mkString (malloc (live w) (chunk_size_for P slots) + hdr) len) /\
  pool (snd (AllocString P malloc fuel s w))
    = pool (carved P (grown P malloc w slots) slots) /\
  live (snd (AllocString P malloc fuel s w))
    = live (grown P malloc w slots).
Proof.
  intros Hfit HL Hm.
  pose proof (AllocString_outcome P malloc fuel s w) as Ho.
  destruct (AllocString_pool P malloc fuel s w) as [Ep El].
  apply Z.eqb_neq in Hm.
  assert (EL : (slots >? kMaxStringLength) = false)
    by (rewrite Z.gtb_ltb; apply Z.ltb_ge; lia).
  rewrite AllocMemory_for_string, Hfit, EL, Hm in Ho, Ep, El. simpl in *.
  auto.
Qed.

Lemma AllocString_too_long :
  fits P (pool w) slots = false ->
  kMaxStringLength < slots ->
  AllocString P malloc fuel s w = (Throw TooLong, w).
Proof.
  intros Hfit HL.
  pose proof (AllocString_outcome P malloc fuel s w) as Ho.
  assert (EL : (slots >? kMaxStringLength) = true)
    by (rewrite Z.gtb_ltb; apply Z.ltb_lt; lia).
  rewrite AllocMemory_for_string, Hfit, EL in Ho. simpl in Ho. exact Ho.
Qed.

Lemma AllocString_out_of_memory :
  fits P (pool w) slots = false ->
  slots <= kMaxStringLength ->
  malloc (live w) (chunk_size_for P slots) = 0 ->
  AllocString P malloc fuel s w = (Throw OutOfMemory, w).
Proof.
  intros Hfit HL Hm.
  pose proof (AllocString_outcome P malloc fuel s w) as Ho.
  apply Z.eqb_eq in Hm.
  assert (EL : (slots >? kMaxStringLength) = false)
    by (rewrite Z.gtb_ltb; apply Z.ltb_ge; lia).
  rewrite AllocMemory_for_string, Hfit, EL, Hm in Ho. simpl in Ho. exact Ho.
Qed.

End AllocStringCases.




(** ** The length ceiling *)

(** Where the ceiling really lies: with a provider that never fails, a
    call in a reachable state throws at the length check exactly when the
    sequence together with its terminator needs more than
    [kMaxStringLength] slots, that is when
    [kMaxStringLength <= len(s)]; a shorter sequence is allocated. *)
Lemma AllocString_ceiling (P : Platform) (malloc : Provider) (fuel : nat)
    (s : list wchar_t) (w : World) :
  platform_ok P -> (2 <= fuel)%nat -> reachable P malloc w ->
  (forall lv cb, malloc lv cb <> 0) ->
  Z.of_nat (List.length s) + 1 < SIZE_MODULUS P ->
  (kMaxStringLength <= Z.of_nat (List.length s) ->
   AllocString P malloc fuel s w = (Throw TooLong, w)) /\
  (Z.of_nat (List.length s) < kMaxStringLength ->
   exists h, fst (AllocString P malloc fuel s w) = Return h).
Proof.
  intros HP Hf Hr Hm Hlen.
  pose proof (reachable_pool_inv P malloc HP w Hr) as Hinv.
  pose proof (free_slots_bound P HP w Hinv) as Hfree.
  pose proof (wchar_size_cases P HP) as Hw.
  assert (Hs : size_t_wrap P (Z.of_nat (List.length s) + 1)
               = Z.of_nat (List.length s) + 1)
    by (unfold size_t_wrap; apply Z.mod_small; lia).
  split.
  - intros Hbig. apply AllocString_too_long; try assumption.
    + rewrite Hs. apply (fits_false P). nia.
    + rewrite Hs. lia.
  - intros Hsmall.
    destruct (fits P (pool w) (size_t_wrap P (Z.of_nat (List.length s) + 1)))
      eqn:Hfit.
    + eexists. apply (AllocString_carves P malloc HP fuel Hf s w Hfit).
    + eexists. apply (AllocString_grows P malloc HP fuel Hf s w Hfit).
      * rewrite Hs. lia.
      * apply Hm.
Qed.

(** C2 (the code at the boundary). A sequence of exactly
    [kMaxStringLength] characters, which does not exceed the ceiling, is
    rejected at the length check of a freshly constructed allocator,
    whatever the provider would have answered: [AllocMemory] compares the
    slot count including the terminator with [kMaxStringLength]. *)
Theorem AllocString_rejects_ceiling_length (malloc : Provider) :
  Z.of_nat (List.length ceiling_string) = kMaxStringLength /\
  AllocString lp64 malloc 2 ceiling_string empty_world
    = (Throw TooLong, empty_world).
Proof.
  assert (Hlen : Z.of_nat (List.length ceiling_string) = kMaxStringLength).
  { unfold ceiling_string. rewrite repeat_length. apply Z2Nat.id.
    unfold kMaxStringLength. lia. }
  split; [exact Hlen|].
  assert (Hs : size_t_wrap lp64 (Z.of_nat (List.length ceiling_string) + 1)
               = kMaxStringLength + 1).
  { rewrite Hlen. apply (size_t_wrap_small lp64 lp64_ok).
    unfold kMaxStringLength. lia. }
  apply (AllocString_too_long lp64 malloc lp64_ok 2 (le_n 2)).
  - rewrite Hs. reflexivity.
  - rewrite Hs. lia.
Qed.

(** ** Clear *)




(** ** Handed-out characters stay where they are *)

Section StabilityFacts.

Variable P : Platform.
Variable malloc : Provider.
Hypothesis HP : platform_ok P.

Local Abbreviation wsz := (sizeof_wchar_t P).
Local Abbreviation hdr := (sizeof_ChunkHeader P).

Lemma AllocMemory_chars (fuel : nat) (length : Z) :
  forall w, chars (snd (AllocMemory P malloc fuel length w)) = chars w.
Proof.
  induction fuel as [|fuel IH]; intros w; [reflexivity|].
  rewrite AllocMemory_step.
  destruct (fits P (pool w) length); [reflexivity|].
  destruct (length >? kMaxStringLength); [reflexivity|].
  destruct (malloc (live w) (chunk_size_for P length) =? 0); [reflexivity|].
  rewrite IH. reflexivity.
Qed.

(** The memory a returning call leaves, in terms of the memory before. *)
Lemma AllocString_chars (fuel : nat) (s : list wchar_t) (w : World) (h : String) :
  fst (AllocString P malloc fuel s w) = Return h ->
  chars (snd (AllocString P malloc fuel s w))
  = store (wmemcpy P (chars w) (m_ptr h) s (List.length s))
          (m_ptr h + Z.of_nat (List.length s) * wsz) 0.
Proof.
  intros H. destruct (AllocString_Return P malloc fuel s w h H) as (_ & _ & E).
  rewrite E. simpl. rewrite AllocMemory_chars. reflexivity.
Qed.

(** The call writes only the slots of the new string and its terminator. *)
Lemma written_outside (m : Memory) (ptr : Z) (s : list wchar_t) (a : Z) :
  a < ptr \/ ptr + (Z.of_nat (List.length s) + 1) * wsz <= a ->
  store (wmemcpy P m ptr s (List.length s))
        (ptr + Z.of_nat (List.length s) * wsz) 0 a = m a.
Proof.
  pose proof (wchar_size_pos P HP) as Hw. intros Ha. unfold store.
  destruct (a =? ptr + Z.of_nat (List.length s) * wsz) eqn:E.
  - apply Z.eqb_eq in E. nia.
  - apply (wmemcpy_outside P HP). nia.
Qed.

(** A returning call went one of two ways. *)
Lemma AllocString_Return_cases (fuel : nat) (s : list wchar_t) (w : World)
    (h : String) :
  (2 <= fuel)%nat ->
  fst (AllocString P malloc fuel s w) = Return h ->
  let slots := size_t_wrap P (Z.of_nat (List.length s) + 1) in
  (fits P (pool w) slots = true /\
   h = mkString (m_pNext (pool w)) (Z.of_nat (List.length s)) /\
   pool (snd (AllocString P malloc fuel s w)) = pool (carved P w slots))
  \/
  (fits P (pool w) slots = false /\ slots <= kMaxStringLength /\
   malloc (live w) (chunk_size_for P slots) <> 0 /\
   h = mkString (malloc (live w) (chunk_size_for P slots) + hdr)
                (Z.of_nat (List.length s)) /\
   pool (snd (AllocString P malloc fuel s w))
   = pool (carved P (grown P malloc w slots) slots)).
Proof.
  intros Hf Hret slots.
  destruct (fits P (pool w) slots) eqn:Hfit.
  - left. destruct (AllocString_carves P malloc HP fuel Hf s w Hfit)
      as (Hh & Hp & _).
    rewrite Hh in Hret. inversion Hret. auto.
  - right. destruct (Z_lt_le_dec kMaxStringLength slots) as [Hbig|Hsmall].
    { rewrite (AllocString_too_long P malloc HP fuel Hf s w Hfit Hbig) in Hret.
      discriminate Hret. }
    destruct (Z.eq_dec (malloc (live w) (chunk_size_for P slots)) 0) as [Hz|Hnz].
    { rewrite (AllocString_out_of_memory P malloc HP fuel Hf s w Hfit Hsmall Hz)
        in Hret. discriminate Hret. }
    destruct (AllocString_grows P malloc HP fuel Hf s w Hfit Hsmall Hnz)
      as (Hh & Hp & _).
    rewrite Hh in Hret. inversion Hret. auto.
Qed.

Lemma designates_ToStdString (w : World) (h : String) (s : list wchar_t) :
  designates P w h s ->
  ToStdString P (chars w) h = s /\ 0 <= m_length h.
Proof.
  intros (Hl & Hr & _). rewrite ToStdString_read, Hl, Nat2Z.id.
  split; [exact Hr | lia].
Qed.

End StabilityFacts.

Section DesignatesFacts.

Variable P : Platform.
Variable malloc : Provider.
Hypothesis HP : platform_ok P.

Local Abbreviation wsz := (sizeof_wchar_t P).
Local Abbreviation hdr := (sizeof_ChunkHeader P).

Local Ltac sizes :=
  pose proof (wchar_size_cases P HP);
  pose proof (header_size_cases P HP);
  unfold kMaxStringLength, kMinChunkSizeInBytes in *.

(** The handle a call returns designates the sequence it was given. *)
Lemma AllocString_designates (fuel : nat) (s : list wchar_t) (w : World)
    (h : String) :
  (2 <= fuel)%nat -> pool_inv P w ->
  Z.of_nat (List.length s) + 1 < 2 ^ 32 ->
  fst (AllocString P malloc fuel s w) = Return h ->
  designates P (snd (AllocString P malloc fuel s w)) h s.
Proof.
  intros Hf Hinv Hlen Hret.
  pose proof (slots_exact P HP s Hlen) as Hs.
  destruct (AllocString_Return P malloc fuel s w h Hret) as (_ & Hl & _).
  destruct (AllocString_reads_back P malloc HP fuel s w h Hret) as [Hr _].
  rewrite ToStdString_read, Hl, Nat2Z.id in Hr.
  split; [exact Hl|]. split; [exact Hr|].
  intros i Hi.
  destruct (AllocString_Return_cases P malloc HP fuel s w h Hf Hret)
    as [(Hfit & Hh & Hp) | (Hfit & Hsmall & Hnz & Hh & Hp)];
    rewrite Hp, Hs in *; subst h; simpl m_ptr.
  - apply (fits_true P) in Hfit.
    destruct Hinv as [[E|[c (Hcs & Hlo & Hle & Hlim & Hsz)]] _].
    + rewrite E in Hfit. simpl in Hfit. sizes. nia.
    + split.
      * exists c. split.
        { destruct Hcs as [cs Hcs]. unfold carved; simpl. rewrite Hcs.
          apply in_or_app. right. now left. }
        sizes. nia.
      * unfold carved; simpl. sizes. nia.
  - assert (HL : 0 <= Z.of_nat (List.length s) + 1 <= kMaxStringLength) by lia.
    pose proof (chunk_size_for_bounds P HP _ HL) as (Hb & _ & _).
    split.
    + eexists. split.
      * unfold carved, grown; simpl. apply in_or_app. right. now left.
      * simpl. sizes. nia.
    + unfold carved, grown; simpl. sizes. nia.
Qed.

Hypothesis Hfresh : provider_fresh malloc.

(** What was handed out before a returning call is neither written nor
    given back to the free region by it. *)
Lemma AllocString_frame (fuel : nat) (s : list wchar_t) (w : World)
    (h : String) (a : Z) :
  (2 <= fuel)%nat -> pool_inv P w ->
  Z.of_nat (List.length s) + 1 < 2 ^ 32 ->
  fst (AllocString P malloc fuel s w) = Return h ->
  handed_out (pool w) a ->
  chars (snd (AllocString P malloc fuel s w)) a = chars w a /\
  handed_out (pool (snd (AllocString P malloc fuel s w))) a.
Proof.
  intros Hf Hinv Hlen Hret [(c & Hc & Hin) Hfree].
  pose proof (slots_exact P HP s Hlen) as Hs.
  pose proof (pool_inv_cursor P w Hinv) as Hcur.
  rewrite (AllocString_chars P malloc fuel s w h Hret).
  destruct (AllocString_Return_cases P malloc HP fuel s w h Hf Hret)
    as [(Hfit & Hh & Hp) | (Hfit & Hsmall & Hnz & Hh & Hp)];
    rewrite Hp, Hs in *; subst h; simpl m_ptr.
  - apply (fits_true P) in Hfit. split.
    + apply (written_outside P HP). sizes. nia.
    + split; [exists c; split; [exact Hc | exact Hin]|].
      unfold carved; simpl. sizes. nia.
  - assert (HL : 0 <= Z.of_nat (List.length s) + 1 <= kMaxStringLength) by lia.
    pose proof (chunk_size_for_bounds P HP _ HL) as (Hb & _ & _).
    destruct Hinv as [_ Hlive]. rewrite Forall_forall in Hlive.
    pose proof (Hfresh (live w) _ _ _ Hnz (Hlive c Hc)) as Hdisj.
    split.
    + apply (written_outside P HP). sizes. nia.
    + split.
      * exists c. split; [|assumption].
        unfold carved, grown; simpl. apply in_or_app. now left.
      * unfold carved, grown; simpl. sizes. nia.
Qed.

(** Earlier handles keep designating their sequences across a call. *)
Lemma AllocString_preserves_designates (fuel : nat) (t : list wchar_t)
    (w : World) (h : String) (s : list wchar_t) :
  (2 <= fuel)%nat -> pool_inv P w ->
  Z.of_nat (List.length t) + 1 < 2 ^ 32 ->
  designates P w h s ->
  designates P (snd (AllocString P malloc fuel t w)) h s.
Proof.
  intros Hf Hinv Hlen (Hl & Hr & Hout).
  destruct (AllocString_total P malloc HP fuel t w Hf) as [[h' Hret]|[e He]].
  - split; [exact Hl|]. split.
    + rewrite <- Hr at 2. apply read_chars_agree. intros i Hi.
      apply (AllocString_frame fuel t w h' _ Hf Hinv Hlen Hret), Hout, Hi.
    + intros i Hi.
      apply (AllocString_frame fuel t w h' _ Hf Hinv Hlen Hret), Hout, Hi.
  - rewrite He. exact (conj Hl (conj Hr Hout)).
Qed.

End DesignatesFacts.

Lemma bump_malloc_fresh : provider_fresh bump_malloc.
Proof.
  intros lv cb b n _ Hin. right. unfold bump_malloc.
  induction lv as [|x lv IH]; [destruct Hin|].
  simpl. destruct Hin as [->|Hin].
  - simpl. lia.
  - specialize (IH Hin). lia.
Defined.

(** Handles that designate two sequences compare as the sequences do. *)
Lemma Compare_designated (P : Platform) (w : World) (h1 h2 : String)
    (a b : list wchar_t) :
  designates P w h1 a -> designates P w h2 b ->
  Z.sgn (Compare P (chars w) h1 h2) = sign_of (lexicographic_compare a b).
Proof.
  intros D1 D2.
  destruct (designates_ToStdString P w h1 a D1) as [E1 L1].
  destruct (designates_ToStdString P w h2 b D2) as [E2 L2].
  rewrite Compare_lexicographic by assumption. rewrite E1, E2. reflexivity.
Qed.

(** C3. Allocate [a] and then [b] from a reachable allocator, both within
    the length ceiling.  The sign of [Compare] on the two handles, in
    either order, is the sign of the standard lexicographic comparison of
    [a] and [b]; hence [operator<] on the handles orders them as the
    sequences are ordered. *)
Theorem Compare_matches_lexicographic (P : Platform) (malloc : Provider)
    (fuel : nat) (a b : list wchar_t) (w : World) (h1 h2 : String) :
  platform_ok P -> provider_fresh malloc -> (2 <= fuel)%nat ->
  reachable P malloc w ->
  Z.of_nat (List.length a) <= kMaxStringLength ->
  Z.of_nat (List.length b) <= kMaxStringLength ->
  fst (AllocString P malloc fuel a w) = Return h1 ->
  fst (AllocString P malloc fuel b (snd (AllocString P malloc fuel a w)))
    = Return h2 ->
  forall m,
    m = chars (snd (AllocString P malloc fuel b
                      (snd (AllocString P malloc fuel a w)))) ->
    Z.sgn (Compare P m h1 h2) = sign_of (lexicographic_compare a b) /\
    Z.sgn (Compare P m h2 h1) = sign_of (lexicographic_compare b a) /\
    (op_lt P m h1 h2 = true <-> lexicographic_compare a b = Lt).
Proof.
  intros HP Hfresh Hf Hr Ha Hb H1 H2 m ->.
  assert (Hk : kMaxStringLength + 1 < 2 ^ 32) by (unfold kMaxStringLength; lia).
  pose proof (reachable_pool_inv P malloc HP w Hr) as Hinv.
  pose proof (pool_inv_AllocString P malloc HP fuel a w Hf Hinv) as Hinv1.
  assert (D1 : designates P (snd (AllocString P malloc fuel a w)) h1 a)
    by (apply AllocString_designates; trivial; lia).
  assert (D1' : designates P
                  (snd (AllocString P malloc fuel b
                          (snd (AllocString P malloc fuel a w)))) h1 a)
    by (apply AllocString_preserves_designates; trivial; lia).
  assert (D2 : designates P
                 (snd (AllocString P malloc fuel b
                         (snd (AllocString P malloc fuel a w)))) h2 b)
    by (apply AllocString_designates; trivial; lia).
  pose proof (Compare_designated P _ h1 h2 a b D1' D2) as C12.
  pose proof (Compare_designated P _ h2 h1 b a D2 D1') as C21.
  split; [exact C12|]. split; [exact C21|].
  unfold op_lt. rewrite Z.ltb_lt, <- Z.sgn_neg_iff, C12.
  destruct (lexicographic_compare a b); simpl; split;
    intros H; try reflexivity; try discriminate H; lia.
Qed.

Lemma Compare_matches_lexicographic_witness :
  let a := [65; 112; 112; 108; 101] in
  let b := [65; 112; 112] in
  let w1 := snd (AllocString lp64 bump_malloc 2 a empty_world) in
  let w2 := snd (AllocString lp64 bump_malloc 2 b w1) in
  fst (AllocString lp64 bump_malloc 2 a empty_world) = Return (mkString 4112 5) /\
  fst (AllocString lp64 bump_malloc 2 b w1) = Return (mkString 4136 3) /\
  lexicographic_compare a b = Gt /\
  Z.sgn (Compare lp64 (chars w2) (mkString 4112 5) (mkString 4136 3)) = 1.
Proof.
  intros a b w1 w2.
  assert (H1 : fst (AllocString lp64 bump_malloc 2 a empty_world)
               = Return (mkString 4112 5)) by (vm_compute; reflexivity).
  assert (H2 : fst (AllocString lp64 bump_malloc 2 b
                      (snd (AllocString lp64 bump_malloc 2 a empty_world)))
               = Return (mkString 4136 3)) by (vm_compute; reflexivity).
  assert (Ha : Z.of_nat (List.length a) <= kMaxStringLength)
    by (vm_compute; discriminate).
  assert (Hb : Z.of_nat (List.length b) <= kMaxStringLength)
    by (vm_compute; discriminate).
  split; [exact H1|]. split; [exact H2|]. split; [reflexivity|].
  exact (proj1 (Compare_matches_lexicographic lp64 bump_malloc 2 a b
                  empty_world _ _ lp64_ok bump_malloc_fresh (le_n 2)
                  (reach_new lp64 bump_malloc [] (fun _ => 0))
                  Ha Hb H1 H2 _ eq_refl)).
Defined.

(** ** A vector of handles orders as the vector of its strings *)

Lemma Forall2_nth_error {A B : Type} (R : A -> B -> Prop) (l : list A)
    (l' : list B) :
  Forall2 R l l' ->
  forall i x y, nth_error l i = Some x -> nth_error l' i = Some y -> R x y.
Proof.
  induction 1 as [|x0 y0 l l' H0 _ IH]; intros [|i] x y Hx Hy; simpl in *;
    try discriminate.
  - inversion Hx; inversion Hy; subst. exact H0.
  - eapply IH; eassumption.
Qed.

Lemma AllocStrings_designates (P : Platform) (malloc : Provider) (fuel : nat)
    (ss : list (list wchar_t)) :
  platform_ok P -> provider_fresh malloc -> (2 <= fuel)%nat ->
  Forall (fun s => Z.of_nat (List.length s) <= kMaxStringLength) ss ->
  forall w hs,
    pool_inv P w ->
    fst (AllocStrings P malloc fuel ss w) = Return hs ->
    Forall2 (designates P (snd (AllocStrings P malloc fuel ss w))) hs ss /\
    (forall h0 s0, designates P w h0 s0 ->
                   designates P (snd (AllocStrings P malloc fuel ss w)) h0 s0).
Proof.
  intros HP Hfresh Hf Hlen.
  assert (Hk : kMaxStringLength + 1 < 2 ^ 32) by (unfold kMaxStringLength; lia).
  induction Hlen as [|s ss Hs _ IH]; intros w hs Hinv Hret.
  - simpl in *. inversion Hret; subst. split; [constructor | auto].
  - assert (Hs1 : Z.of_nat (List.length s) + 1 < 2 ^ 32) by lia.
    pose proof (pool_inv_AllocString P malloc HP fuel s w Hf Hinv) as Hinv1.
    pose proof (AllocString_designates P malloc HP fuel s w) as Hnew.
    pose proof (fun h0 s0 =>
      AllocString_preserves_designates P malloc HP Hfresh fuel s w h0 s0
        Hf Hinv Hs1) as Hold.
    simpl in Hret |- *.
    destruct (AllocString P malloc fuel s w) as [[h|e|] w1]; simpl in *;
      try discriminate.
    specialize (IH w1). specialize (Hnew h Hf Hinv Hs1 eq_refl).
    destruct (AllocStrings P malloc fuel ss w1) as [[hs'|e|] w2]; simpl in *;
      try discriminate.
    inversion Hret; subst.
    destruct (IH hs' Hinv1 eq_refl) as [IH1 IH2].
    split; [constructor; [apply IH2, Hnew | exact IH1]|].
    intros h0 s0 D. apply IH2, Hold, D.
Qed.

(** X20. Any two handles of the vector compare as their strings do, so a
    sort by [operator<] arranges the handles as it arranges the
    strings. *)
Corollary AllocStrings_ordering (P : Platform) (malloc : Provider) (fuel : nat)
    (ss : list (list wchar_t)) (w : World) (hs : list String) :
  platform_ok P -> provider_fresh malloc -> (2 <= fuel)%nat ->
  reachable P malloc w ->
  Forall (fun s => Z.of_nat (List.length s) <= kMaxStringLength) ss ->
  fst (AllocStrings P malloc fuel ss w) = Return hs ->
  forall i j hi hj si sj,
    nth_error hs i = Some hi -> nth_error ss i = Some si ->
    nth_error hs j = Some hj -> nth_error ss j = Some sj ->
    Z.sgn (Compare P (chars (snd (AllocStrings P malloc fuel ss w))) hi hj)
    = sign_of (lexicographic_compare si sj).
Proof.
  intros HP Hfresh Hf Hr Hlen Hret i j hi hj si sj Hhi Hsi Hhj Hsj.
  destruct (AllocStrings_designates P malloc fuel ss HP Hfresh Hf Hlen w hs
              (reachable_pool_inv P malloc HP w Hr) Hret) as [HF _].
  apply Compare_designated.
  - exact (Forall2_nth_error _ _ _ HF i hi si Hhi Hsi).
  - exact (Forall2_nth_error _ _ _ HF j hj sj Hhj Hsj).
Qed.

(** * Further properties of the String class *)

Section LexicographicFacts.

Lemma sign_of_CompOpp (c : comparison) : sign_of (CompOpp c) = - sign_of c.
Proof. destruct c; reflexivity. Qed.

Lemma sign_of_inj (c d : comparison) : sign_of c = sign_of d -> c = d.
Proof. destruct c, d; simpl; intros H; try reflexivity; discriminate H. Qed.

Lemma lexicographic_compare_antisym (a : list wchar_t) :
  forall b, lexicographic_compare b a = CompOpp (lexicographic_compare a b).
Proof.
  induction a as [|x a IH]; intros [|y b]; simpl; try reflexivity.
  rewrite (Z.compare_antisym x y).
  destruct (x ?= y); simpl; [apply IH | reflexivity | reflexivity].
Qed.

Lemma lexicographic_compare_eq (a : list wchar_t) :
  forall b, lexicographic_compare a b = Eq <-> a = b.
Proof.
  induction a as [|x a IH]; intros [|y b]; simpl;
    try (split; [reflexivity || discriminate | reflexivity || discriminate]).
  destruct (Z.compare_spec x y) as [E|L|G].
  - subst y. rewrite IH. split; [intros ->; reflexivity | intros H; now inversion H].
  - split; [discriminate | intros H; inversion H; lia].
  - split; [discriminate | intros H; inversion H; lia].
Qed.

Lemma lexicographic_compare_trans (a : list wchar_t) :
  forall b c,
    lexicographic_compare a b = Lt -> lexicographic_compare b c = Lt ->
    lexicographic_compare a c = Lt.
Proof.
  induction a as [|x a IH]; intros [|y b] [|z c]; simpl;
    try reflexivity; try discriminate.
  destruct (Z.compare_spec x y) as [E|L|G]; try discriminate;
    destruct (Z.compare_spec y z) as [E'|L'|G']; try discriminate;
    intros H1 H2.
  - subst. rewrite Z.compare_refl. eapply IH; eassumption.
  - subst. now apply Z.compare_lt_iff in L'; rewrite L'.
  - subst. now apply Z.compare_lt_iff in L; rewrite L.
  - assert (Hxz : x < z) by lia. now apply Z.compare_lt_iff in Hxz; rewrite Hxz.
Qed.

End LexicographicFacts.

Lemma Compare_zero_sgn (z : Z) : Z.sgn z = 0 <-> z = 0.
Proof. apply Z.sgn_null_iff. Qed.

Lemma Compare_zero_lexicographic (P : Platform) (m : Memory) (a b : String) :
  0 <= m_length a -> 0 <= m_length b ->
  (Compare P m a b = 0 <-> ToStdString P m a = ToStdString P m b).
Proof.
  intros Ha Hb.
  rewrite <- Compare_zero_sgn, Compare_lexicographic by assumption.
  rewrite <- lexicographic_compare_eq.
  destruct (lexicographic_compare _ _); simpl; split; intros H;
    try reflexivity; discriminate H.
Qed.

Lemma op_eq_same_text (P : Platform) (m : Memory) (a b : String) :
  0 <= m_length a -> 0 <= m_length b ->
  (op_eq P m a b = true <-> ToStdString P m a = ToStdString P m b).
Proof.
  intros Ha Hb. unfold op_eq. rewrite Z.eqb_eq.
  apply Compare_zero_lexicographic; assumption.
Qed.

(** X1. [Compare] is antisymmetric: exchanging the two handles flips the
    sign of the result. *)
Theorem Compare_antisymmetric (P : Platform) (m : Memory) (a b : String) :
  0 <= m_length a -> 0 <= m_length b ->
  Z.sgn (Compare P m b a) = - Z.sgn (Compare P m a b).
Proof.
  intros Ha Hb. rewrite !Compare_lexicographic by assumption.
  rewrite lexicographic_compare_antisym. apply sign_of_CompOpp.
Qed.

Lemma Compare_antisymmetric_witness :
  let m : Memory := fun a => a in
  0 <= 2 /\
  Z.sgn (Compare lp64 m (mkString 200 3) (mkString 100 2)) = 1 /\
  Z.sgn (Compare lp64 m (mkString 100 2) (mkString 200 3)) = -1.
Proof.
  intros m.
  assert (H2 : 0 <= 2) by (intro H; discriminate H).
  assert (H3 : 0 <= 3) by (intro H; discriminate H).
  split; [exact H2|].
  assert (E : Z.sgn (Compare lp64 m (mkString 100 2) (mkString 200 3)) = -1)
    by (vm_compute; reflexivity).
  split; [|exact E].
  rewrite (Compare_antisymmetric lp64 m (mkString 100 2) (mkString 200 3) H2 H3).
  rewrite E. reflexivity.
Defined.

(** X2. [Compare] returns 0, and [operator==] holds, exactly when the two
    handles convert to the same string: equality is by content, not by
    pointer. *)
Theorem Compare_zero_iff_same_text (P : Platform) (m : Memory) (a b : String) :
  0 <= m_length a -> 0 <= m_length b ->
  (Compare P m a b = 0 <-> ToStdString P m a = ToStdString P m b) /\
  (op_eq P m a b = true <-> ToStdString P m a = ToStdString P m b) /\
  (op_ne P m a b = true <-> ToStdString P m a <> ToStdString P m b).
Proof.
  intros Ha Hb.
  pose proof (Compare_zero_lexicographic P m a b Ha Hb) as H0.
  split; [exact H0|]. split.
  - unfold op_eq. rewrite Z.eqb_eq. exact H0.
  - unfold op_ne. rewrite negb_true_iff, Z.eqb_neq, H0. reflexivity.
Qed.

Lemma Compare_zero_iff_same_text_witness :
  let m : Memory := fun a => if a <? 200 then a - 100 else a - 200 in
  0 <= 2 /\
  ToStdString lp64 m (mkString 100 2) = [0; 4] /\
  ToStdString lp64 m (mkString 200 2) = [0; 4] /\
  op_eq lp64 m (mkString 100 2) (mkString 200 2) = true.
Proof.
  intros m.
  assert (H2 : 0 <= 2) by (intro H; discriminate H).
  split; [exact H2|]. split; [reflexivity|]. split; [reflexivity|].
  apply (proj1 (proj2 (Compare_zero_iff_same_text lp64 m (mkString 100 2)
                         (mkString 200 2) H2 H2))).
  reflexivity.
Defined.

Lemma op_lt_lexicographic (P : Platform) (m : Memory) (a b : String) :
  0 <= m_length a -> 0 <= m_length b ->
  (op_lt P m a b = true <->
   lexicographic_compare (ToStdString P m a) (ToStdString P m b) = Lt).
Proof.
  intros Ha Hb. unfold op_lt.
  rewrite Z.ltb_lt, <- Z.sgn_neg_iff, Compare_lexicographic by assumption.
  destruct (lexicographic_compare _ _); simpl; split; intros H;
    try reflexivity; try discriminate H; lia.
Qed.

(** X3. [operator<] on handles is a strict weak ordering, as [std::sort]
    requires of its comparison: it is irreflexive, asymmetric and
    transitive, and two handles neither of which is less than the other
    are exactly those that are [==], a relation that is transitive
    too. *)
Theorem op_lt_strict_weak_ordering (P : Platform) (m : Memory)
    (a b c : String) :
  0 <= m_length a -> 0 <= m_length b -> 0 <= m_length c ->
  op_lt P m a a = false /\
  (op_lt P m a b = true -> op_lt P m b a = false) /\
  (op_lt P m a b = true -> op_lt P m b c = true -> op_lt P m a c = true) /\
  (op_lt P m a b = false /\ op_lt P m b a = false <-> op_eq P m a b = true) /\
  (op_eq P m a b = true -> op_eq P m b c = true -> op_eq P m a c = true).
Proof.
  intros Ha Hb Hc.
  pose proof (op_lt_lexicographic P m a b Ha Hb) as Lab.
  pose proof (op_lt_lexicographic P m b a Hb Ha) as Lba.
  pose proof (op_lt_lexicographic P m b c Hb Hc) as Lbc.
  pose proof (op_lt_lexicographic P m a c Ha Hc) as Lac.
  pose proof (op_lt_lexicographic P m a a Ha Ha) as Laa.
  pose proof (op_eq_same_text P m a b Ha Hb) as Eab.
  pose proof (op_eq_same_text P m b c Hb Hc) as Ebc.
  pose proof (op_eq_same_text P m a c Ha Hc) as Eac.
  pose proof (lexicographic_compare_antisym (ToStdString P m a)
                (ToStdString P m b)) as Anti.
  split; [|split; [|split; [|split]]].
  - apply not_true_is_false. rewrite Laa.
    rewrite (proj2 (lexicographic_compare_eq _ _) eq_refl). discriminate.
  - intros H. apply not_true_is_false. rewrite Lba, Anti.
    apply Lab in H. rewrite H. discriminate.
  - intros H1 H2. apply Lac.
    eapply lexicographic_compare_trans; [apply Lab, H1 | apply Lbc, H2].
  - rewrite Eab, <- lexicographic_compare_eq. split.
    + intros [H1 H2].
      destruct (lexicographic_compare (ToStdString P m a) (ToStdString P m b))
        eqn:E; [reflexivity | |].
      * rewrite (proj2 Lab eq_refl) in H1. discriminate H1.
      * rewrite (proj2 Lba) in H2; [discriminate H2|]. rewrite Anti.
        reflexivity.
    + intros E. split; apply not_true_is_false.
      * rewrite Lab, E. discriminate.
      * rewrite Lba, Anti, E. discriminate.
  - rewrite Eab, Ebc, Eac. congruence.
Qed.

Lemma op_lt_strict_weak_ordering_witness :
  let m : Memory := fun a => a in
  0 <= 2 /\
  op_lt lp64 m (mkString 100 2) (mkString 200 2) = true /\
  op_lt lp64 m (mkString 200 2) (mkString 300 2) = true /\
  op_lt lp64 m (mkString 100 2) (mkString 300 2) = true.
Proof.
  intros m.
  assert (H2 : 0 <= 2) by (intro H; discriminate H).
  assert (L1 : op_lt lp64 m (mkString 100 2) (mkString 200 2) = true)
    by (vm_compute; reflexivity).
  assert (L2 : op_lt lp64 m (mkString 200 2) (mkString 300 2) = true)
    by (vm_compute; reflexivity).
  split; [exact H2|]. split; [exact L1|]. split; [exact L2|].
  exact (proj1 (proj2 (proj2 (op_lt_strict_weak_ordering lp64 m
           (mkString 100 2) (mkString 200 2) (mkString 300 2) H2 H2 H2)))
           L1 L2).
Defined.

(** X4. The relational operators agree with one another: [a > b] is
    [b < a], [a <= b] is [!(b < a)], [a >= b] is [!(a < b)], [a != b] is
    [!(a == b)], and exactly one of [a < b], [a == b], [a > b] holds. *)
Theorem relational_operators_agree (P : Platform) (m : Memory) (a b : String) :
  0 <= m_length a -> 0 <= m_length b ->
  op_gt P m a b = op_lt P m b a /\
  op_le P m a b = negb (op_lt P m b a) /\
  op_ge P m a b = negb (op_lt P m a b) /\
  op_ne P m a b = negb (op_eq P m a b) /\
  (op_lt P m a b = true /\ op_eq P m a b = false /\ op_gt P m a b = false \/
   op_lt P m a b = false /\ op_eq P m a b = true /\ op_gt P m a b = false \/
   op_lt P m a b = false /\ op_eq P m a b = false /\ op_gt P m a b = true).
Proof.
  intros Ha Hb.
  assert (Anti : Z.sgn (Compare P m b a) = - Z.sgn (Compare P m a b)).
  { rewrite !Compare_lexicographic by assumption.
    rewrite lexicographic_compare_antisym. apply sign_of_CompOpp. }
  unfold op_gt, op_lt, op_le, op_ge, op_ne, op_eq.
  set (x := Compare P m a b) in *. set (y := Compare P m b a) in *.
  rewrite Z.gtb_ltb, Z.geb_leb.
  assert (Hy : (y < 0 <-> 0 < x) /\ (0 < y <-> x < 0)).
  { pose proof (Z.sgn_neg_iff y). pose proof (Z.sgn_pos_iff y).
    pose proof (Z.sgn_neg_iff x). pose proof (Z.sgn_pos_iff x). lia. }
  destruct (Z.ltb_spec 0 x), (Z.ltb_spec y 0), (Z.leb_spec x 0),
    (Z.leb_spec 0 x), (Z.ltb_spec x 0), (Z.eqb_spec x 0); simpl;
    try lia; auto 10.
Qed.

Lemma relational_operators_agree_witness :
  let m : Memory := fun a => a in
  0 <= 2 /\
  op_gt lp64 m (mkString 200 2) (mkString 100 2) = true /\
  op_le lp64 m (mkString 200 2) (mkString 100 2) = false.
Proof.
  intros m.
  assert (H2 : 0 <= 2) by (intro H; discriminate H).
  destruct (relational_operators_agree lp64 m (mkString 200 2) (mkString 100 2)
              H2 H2) as (Hgt & Hle & _).
  split; [exact H2|]. split.
  - rewrite Hgt. vm_compute. reflexivity.
  - rewrite Hle. vm_compute. reflexivity.
Defined.

(** X5. A handle of length 0 compares without looking at memory or at its
    pointer: it equals every other empty handle and is less than every
    non-empty one.  So a default-constructed or moved-from handle is [==]
    to an allocated empty string. *)
Theorem Compare_empty_handle (P : Platform) (m : Memory) (e h : String) :
  m_length e = 0 -> 0 <= m_length h ->
  Compare P m e h = (if m_length h =? 0 then 0 else -1) /\
  Compare P m h e = (if m_length h =? 0 then 0 else 1) /\
  op_eq P m e h = IsEmpty h.
Proof.
  intros He Hh. unfold op_eq, IsEmpty, Compare. rewrite He.
  destruct (Z.eqb_spec (m_length h) 0) as [E|E].
  - rewrite E. simpl. repeat split; reflexivity.
  - assert (L : (0 <? m_length h) = true) by (apply Z.ltb_lt; lia).
    assert (G : (m_length h <? 0) = false) by (apply Z.ltb_ge; lia).
    assert (G' : (m_length h >? 0) = true) by (rewrite Z.gtb_ltb; exact L).
    rewrite L, G, G'. simpl. repeat split; reflexivity.
Qed.

Lemma Compare_empty_handle_witness :
  let m : Memory := fun a => a in
  m_length String_default = 0 /\
  op_eq lp64 m String_default (mkString 4112 0) = true /\
  Compare lp64 m String_default (mkString 4112 3) = -1.
Proof.
  intros m.
  assert (H3 : 0 <= 3) by (intro H; discriminate H).
  assert (H0 : 0 <= 0) by (intro H; discriminate H).
  split; [reflexivity|]. split.
  - exact (proj2 (proj2 (Compare_empty_handle lp64 m String_default
                           (mkString 4112 0) eq_refl H0))).
  - exact (proj1 (Compare_empty_handle lp64 m String_default
                    (mkString 4112 3) eq_refl H3)).
Defined.

Lemma String_eta (s : String) : mkString (m_ptr s) (m_length s) = s.
Proof. destruct s; reflexivity. Qed.

Lemma wmemcmp_same (P : Platform) (m : Memory) (n : nat) :
  forall p, wmemcmp P m p p n = 0.
Proof.
  induction n as [|n IH]; intros p; simpl; [reflexivity|].
  rewrite Z.ltb_irrefl. apply IH.
Qed.

Lemma Compare_same (P : Platform) (m : Memory) (p l : Z) :
  Compare P m (mkString p l) (mkString p l) = 0.
Proof.
  unfold Compare. simpl. rewrite Z.ltb_irrefl, wmemcmp_same. simpl.
  rewrite Z.gtb_ltb, Z.ltb_irrefl. reflexivity.
Qed.

(** X6. [swap(a, b)] exchanges the two handles and touches no other
    handle; swapping a handle with itself leaves it as it was, and
    swapping twice restores both handles. *)
Theorem swap_exchanges (o : Objects) (a b : nat) :
  swap o a b a = o b /\
  swap o a b b = o a /\
  (forall x, x <> a -> x <> b -> swap o a b x = o x) /\
  (forall x, swap o a a x = o x) /\
  (forall x, swap (swap o a b) a b x = o x).
Proof.
  assert (Hswap : forall o' x,
            swap o' a b x
            = if Nat.eqb x a then o' b else if Nat.eqb x b then o' a else o' x).
  { intros o' x. unfold swap, set_m_ptr, set_m_length.
    destruct (Nat.eqb_spec x a) as [->|Hxa].
    - rewrite ?Nat.eqb_refl. destruct (Nat.eqb_spec a b) as [->|Hab].
      + rewrite ?Nat.eqb_refl. simpl. apply String_eta.
      + assert (Hba : Nat.eqb b a = false) by (apply Nat.eqb_neq; congruence).
        rewrite ?Hba, ?Nat.eqb_refl. simpl. rewrite ?Hba, ?Nat.eqb_refl.
        simpl. apply String_eta.
    - destruct (Nat.eqb_spec x b) as [->|Hxb].
      + assert (Hba : Nat.eqb b a = false) by (apply Nat.eqb_neq; congruence).
        assert (Hab : Nat.eqb a b = false) by (apply Nat.eqb_neq; congruence).
        rewrite ?Hba, ?Hab, ?Nat.eqb_refl. simpl.
        rewrite ?Hba, ?Hab, ?Nat.eqb_refl. simpl. apply String_eta.
      + reflexivity. }
  repeat split.
  - rewrite Hswap, Nat.eqb_refl. reflexivity.
  - rewrite Hswap, Nat.eqb_refl. destruct (Nat.eqb b a) eqn:E; [|reflexivity].
    apply Nat.eqb_eq in E. rewrite E. reflexivity.
  - intros x Hxa Hxb. rewrite Hswap.
    apply Nat.eqb_neq in Hxa, Hxb. rewrite Hxa, Hxb. reflexivity.
  - intros x. unfold swap, set_m_ptr, set_m_length.
    destruct (Nat.eqb_spec x a) as [->|Hxa]; [|reflexivity].
    rewrite ?Nat.eqb_refl. simpl. apply String_eta.
  - intros x. rewrite !Hswap, !Nat.eqb_refl.
    destruct (Nat.eqb_spec x a) as [->|Hxa].
    + destruct (Nat.eqb b a) eqn:E; [|reflexivity].
      apply Nat.eqb_eq in E. rewrite E. reflexivity.
    + destruct (Nat.eqb_spec x b) as [->|Hxb]; reflexivity.
Qed.

(** * Further properties of the Allocator class *)

Section OutcomeFacts.

Variable P : Platform.
Variable malloc : Provider.
Hypothesis HP : platform_ok P.

Local Abbreviation wsz := (sizeof_wchar_t P).
Local Abbreviation hdr := (sizeof_ChunkHeader P).

(** A sequence that can exist in memory takes as many slots as it has
    characters, plus one. *)
Lemma slots_addressable (s : list wchar_t) :
  Z.of_nat (List.length s) + 1 < SIZE_MODULUS P ->
  size_t_wrap P (Z.of_nat (List.length s) + 1) = Z.of_nat (List.length s) + 1.
Proof. intros H. unfold size_t_wrap. apply Z.mod_small. lia. Qed.

(** The result of a call, read off the state it starts in. *)
Lemma AllocString_result (fuel : nat) (s : list wchar_t) (w : World) :
  (2 <= fuel)%nat ->
  let slots := size_t_wrap P (Z.of_nat (List.length s) + 1) in
  fst (AllocString P malloc fuel s w) =
  if fits P (pool w) slots
  then Return (mkString (m_pNext (pool w)) (Z.of_nat (List.length s)))
  else if slots >? kMaxStringLength then Throw TooLong
  else if malloc (live w) (chunk_size_for P slots) =? 0 then Throw OutOfMemory
  else Return (mkString (malloc (live w) (chunk_size_for P slots) + hdr)
                        (Z.of_nat (List.length s))).
Proof.
  intros Hf slots.
  pose proof (AllocString_outcome P malloc fuel s w) as Ho.
  rewrite (AllocMemory_for_string P malloc HP fuel Hf s w) in Ho.
  fold slots in Ho.
  destruct (fits P (pool w) slots); simpl in Ho; [exact Ho|].
  destruct (slots >? kMaxStringLength); simpl in Ho; [now rewrite Ho|].
  destruct (malloc (live w) (chunk_size_for P slots) =? 0); simpl in Ho;
    [now rewrite Ho | exact Ho].
Qed.

(** The state a call leaves, read off the state it starts in. *)
Lemma AllocString_state (fuel : nat) (s : list wchar_t) (w : World) :
  (2 <= fuel)%nat ->
  let slots := size_t_wrap P (Z.of_nat (List.length s) + 1) in
  let w' := snd (AllocString P malloc fuel s w) in
  (pool w', live w') =
  if fits P (pool w) slots then (pool (carved P w slots), live w)
  else if slots >? kMaxStringLength then (pool w, live w)
  else if malloc (live w) (chunk_size_for P slots) =? 0 then (pool w, live w)
  else (pool (carved P (grown P malloc w slots) slots),
        live (grown P malloc w slots)).
Proof.
  intros Hf slots w'.
  destruct (AllocString_pool P malloc fuel s w) as [Ep El].
  unfold w'. rewrite Ep, El.
  rewrite (AllocMemory_for_string P malloc HP fuel Hf s w). fold slots.
  destruct (fits P (pool w) slots); [reflexivity|].
  destruct (slots >? kMaxStringLength); [reflexivity|].
  destruct (malloc (live w) (chunk_size_for P slots) =? 0); reflexivity.
Qed.

(** In a reachable state what fits the active chunk is below the ceiling. *)
Lemma fits_below_ceiling (w : World) (slots : Z) :
  pool_inv P w -> fits P (pool w) slots = true ->
  slots <= kMaxStringLength - 1.
Proof.
  intros Hinv Hfit. apply (fits_true P) in Hfit.
  pose proof (free_slots_bound P HP w Hinv).
  pose proof (wchar_size_cases P HP). nia.
Qed.

End OutcomeFacts.


(** ** Where a string is placed *)

Section PlacementFacts.

Variable P : Platform.
Variable malloc : Provider.
Hypothesis HP : platform_ok P.

Local Abbreviation wsz := (sizeof_wchar_t P).
Local Abbreviation hdr := (sizeof_ChunkHeader P).

Local Ltac sizes :=
  pose proof (wchar_size_cases P HP);
  pose proof (header_size_cases P HP);
  unfold kMaxStringLength, kMinChunkSizeInBytes in *.

(** A call that returns was given a sequence below the ceiling. *)
Lemma returned_below_ceiling (fuel : nat) (s : list wchar_t) (w : World)
    (h : String) :
  (2 <= fuel)%nat -> pool_inv P w ->
  Z.of_nat (List.length s) + 1 < SIZE_MODULUS P ->
  fst (AllocString P malloc fuel s w) = Return h ->
  Z.of_nat (List.length s) + 1 <= kMaxStringLength.
Proof.
  intros Hf Hinv Hlen Hret.
  rewrite (AllocString_result P malloc HP fuel s w Hf) in Hret.
  rewrite (slots_addressable P s Hlen) in Hret.
  destruct (fits P (pool w) _) eqn:Hfit.
  - pose proof (fits_below_ceiling P HP w _ Hinv Hfit). lia.
  - destruct (Z.gtb_spec (Z.of_nat (List.length s) + 1) kMaxStringLength);
      [discriminate Hret | lia].
Qed.

(** The slots of a returned string, terminator included, lie in the data
    region of the chunk that is active after the call, and the cursor
    stands right behind them. *)
Lemma AllocString_placement (fuel : nat) (s : list wchar_t) (w : World)
    (h : String) :
  (2 <= fuel)%nat -> pool_inv P w ->
  Z.of_nat (List.length s) + 1 < SIZE_MODULUS P ->
  fst (AllocString P malloc fuel s w) = Return h ->
  let w' := snd (AllocString P malloc fuel s w) in
  m_pNext (pool w') = m_ptr h + (Z.of_nat (List.length s) + 1) * wsz /\
  exists cs c,
    m_chunks (pool w') = cs ++ [c] /\
    In (block_of c) (live w') /\
    chunk_addr c + hdr <= m_ptr h /\
    m_pNext (pool w') <= m_pLimit (pool w') /\
    m_pLimit (pool w') = chunk_addr c + SizeInBytes c.
Proof.
  intros Hf Hinv Hlen Hret w'.
  pose proof (returned_below_ceiling fuel s w h Hf Hinv Hlen Hret) as Hk.
  pose proof (slots_addressable P s Hlen) as Hs.
  pose proof (pool_inv_AllocString P malloc HP fuel s w Hf Hinv) as Hinv'.
  fold w' in Hinv'.
  destruct (AllocString_Return_cases P malloc HP fuel s w h Hf Hret)
    as [(Hfit & Hh & Hp) | (Hfit & Hsmall & Hnz & Hh & Hp)];
    fold w' in Hp; rewrite Hs in *.
  - apply (fits_true P) in Hfit.
    destruct Hinv as [[E|[c (Hcs & Hlo & Hle & Hlim & Hsz)]] Hlive].
    { rewrite E in Hfit. simpl in Hfit. sizes. nia. }
    destruct Hcs as [cs Hcs].
    destruct (AllocString_carves P malloc HP fuel Hf s w) as (_ & _ & Hl).
    { rewrite Hs. apply (fits_true P). exact Hfit. }
    fold w' in Hl. rewrite Hp, Hl. subst h. unfold carved; simpl.
    split; [reflexivity|]. exists cs, c.
    rewrite Forall_forall in Hlive.
    repeat split; try assumption; try (sizes; nia).
    apply Hlive. rewrite Hcs. apply in_or_app. right. now left.
  - assert (HL : 0 <= Z.of_nat (List.length s) + 1 <= kMaxStringLength) by lia.
    pose proof (chunk_size_for_bounds P HP _ HL) as (Hb & _ & _).
    destruct Hinv' as [_ Hlive']. rewrite Forall_forall in Hlive'.
    rewrite Hp in *. subst h. unfold carved, grown in *; simpl in *.
    split; [reflexivity|]. eexists. eexists.
    split; [reflexivity|].
    split; [apply Hlive'; apply in_or_app; right; now left|].
    simpl. repeat split; sizes; nia.
Qed.

(** Every address of those slots counts as handed out after the call. *)
Lemma AllocString_range_handed_out (fuel : nat) (s : list wchar_t)
    (w : World) (h : String) (a : Z) :
  (2 <= fuel)%nat -> pool_inv P w ->
  Z.of_nat (List.length s) + 1 < SIZE_MODULUS P ->
  fst (AllocString P malloc fuel s w) = Return h ->
  m_ptr h <= a < m_ptr h + (Z.of_nat (List.length s) + 1) * wsz ->
  handed_out (pool (snd (AllocString P malloc fuel s w))) a.
Proof.
  intros Hf Hinv Hlen Hret Ha.
  destruct (AllocString_placement fuel s w h Hf Hinv Hlen Hret)
    as (Hn & cs & c & Hcs & _ & Hlo & Hle & Hlim).
  split.
  - exists c. split; [rewrite Hcs; apply in_or_app; right; now left|].
    sizes. nia.
  - lia.
Qed.

Hypothesis Hfresh : provider_fresh malloc.

(** No address handed out before the call is among them. *)
Lemma AllocString_range_fresh (fuel : nat) (s : list wchar_t) (w : World)
    (h : String) (a : Z) :
  (2 <= fuel)%nat -> pool_inv P w ->
  Z.of_nat (List.length s) + 1 < SIZE_MODULUS P ->
  fst (AllocString P malloc fuel s w) = Return h ->
  handed_out (pool w) a ->
  a < m_ptr h \/ m_ptr h + (Z.of_nat (List.length s) + 1) * wsz <= a.
Proof.
  intros Hf Hinv Hlen Hret [(c & Hc & Hin) Hfree].
  pose proof (returned_below_ceiling fuel s w h Hf Hinv Hlen Hret) as Hk.
  pose proof (slots_addressable P s Hlen) as Hs.
  destruct (AllocString_Return_cases P malloc HP fuel s w h Hf Hret)
    as [(Hfit & Hh & Hp) | (Hfit & Hsmall & Hnz & Hh & Hp)];
    rewrite Hs in *; subst h; simpl m_ptr.
  - apply (fits_true P) in Hfit. lia.
  - assert (HL : 0 <= Z.of_nat (List.length s) + 1 <= kMaxStringLength) by lia.
    pose proof (chunk_size_for_bounds P HP _ HL) as (Hb & _ & _).
    destruct Hinv as [_ Hlive]. rewrite Forall_forall in Hlive.
    pose proof (Hfresh (live w) _ _ _ Hnz (Hlive c Hc)) as Hdisj.
    sizes. nia.
Qed.


End PlacementFacts.

(** X11. Two strings allocated one after the other never share a slot:
    the slots of one, terminator included, end before those of the other
    begin. *)
Theorem allocations_do_not_overlap (P : Platform) (malloc : Provider)
    (fuel : nat) (a b : list wchar_t) (w : World) (h1 h2 : String) :
  platform_ok P -> provider_fresh malloc -> (2 <= fuel)%nat ->
  reachable P malloc w ->
  Z.of_nat (List.length a) + 1 < SIZE_MODULUS P ->
  Z.of_nat (List.length b) + 1 < SIZE_MODULUS P ->
  fst (AllocString P malloc fuel a w) = Return h1 ->
  fst (AllocString P malloc fuel b (snd (AllocString P malloc fuel a w)))
    = Return h2 ->
  m_ptr h1 + (m_length h1 + 1) * sizeof_wchar_t P <= m_ptr h2 \/
  m_ptr h2 + (m_length h2 + 1) * sizeof_wchar_t P <= m_ptr h1.
Proof.
  intros HP Hfresh Hf Hr Ha Hb H1 H2.
  pose proof (wchar_size_cases P HP) as Hw.
  pose proof (reachable_pool_inv P malloc HP w Hr) as Hinv.
  pose proof (pool_inv_AllocString P malloc HP fuel a w Hf Hinv) as Hinv1.
  destruct (AllocString_Return P malloc fuel a w h1 H1) as (_ & L1 & _).
  destruct (AllocString_Return P malloc fuel b _ h2 H2) as (_ & L2 & _).
  rewrite L1, L2.
  assert (Hout : forall x,
            m_ptr h1 <= x < m_ptr h1 + (Z.of_nat (List.length a) + 1)
                                       * sizeof_wchar_t P ->
            x < m_ptr h2 \/
            m_ptr h2 + (Z.of_nat (List.length b) + 1) * sizeof_wchar_t P <= x).
  { intros x Hx.
    apply (AllocString_range_fresh P malloc HP Hfresh fuel b _ h2 x Hf Hinv1
             Hb H2).
    apply (AllocString_range_handed_out P malloc HP fuel a w h1 x Hf Hinv
             Ha H1 Hx). }
  pose proof (Hout (m_ptr h1) ltac:(nia)) as Hp1.
  destruct (Z_lt_le_dec (m_ptr h2)
              (m_ptr h1 + (Z.of_nat (List.length a) + 1) * sizeof_wchar_t P))
    as [Hin|Hafter]; [|now left].
  destruct (Z_lt_le_dec (m_ptr h2) (m_ptr h1)) as [Hbelow|Habove].
  - destruct Hp1 as [Hp1|Hp1]; [lia | now right].
  - pose proof (Hout (m_ptr h2) ltac:(lia)) as Hp2. nia.
Qed.

Lemma allocations_do_not_overlap_witness :
  let a : list wchar_t := [72; 105] in
  let b : list wchar_t := [] in
  let w1 := snd (AllocString lp64 bump_malloc 2 a empty_world) in
  fst (AllocString lp64 bump_malloc 2 a empty_world)
    = Return (mkString 4112 2) /\
  fst (AllocString lp64 bump_malloc 2 b w1) = Return (mkString 4124 0) /\
  (4112 + (2 + 1) * sizeof_wchar_t lp64 <= 4124 \/
   4124 + (0 + 1) * sizeof_wchar_t lp64 <= 4112).
Proof.
  intros a b w1.
  assert (H1 : fst (AllocString lp64 bump_malloc 2 a empty_world)
               = Return (mkString 4112 2)) by (vm_compute; reflexivity).
  assert (H2 : fst (AllocString lp64 bump_malloc 2 b
                      (snd (AllocString lp64 bump_malloc 2 a empty_world)))
               = Return (mkString 4124 0)) by (vm_compute; reflexivity).
  assert (Ha : Z.of_nat (List.length a) + 1 < SIZE_MODULUS lp64)
    by (vm_compute; reflexivity).
  assert (Hb : Z.of_nat (List.length b) + 1 < SIZE_MODULUS lp64)
    by (vm_compute; reflexivity).
  split; [exact H1|]. split; [exact H2|].
  exact (allocations_do_not_overlap lp64 bump_malloc 2 a b empty_world _ _
           lp64_ok bump_malloc_fresh (le_n 2)
           (reach_new lp64 bump_malloc [] (fun _ => 0)) Ha Hb H1 H2).
Defined.

(** ** Str() and the terminator *)

Section StrFacts.

Variable P : Platform.

Local Abbreviation wsz := (sizeof_wchar_t P).

Lemma wstring_from_InPool (m : Memory) (p : Z) (n : nat) :
  forall i,
    wstring_from P m (InPool p) i n = Some (read_chars P m (p + i * wsz) n).
Proof.
  induction n as [|n IH]; intros i; simpl; [reflexivity|].
  rewrite IH.
  replace (p + (i + 1) * wsz) with (p + i * wsz + wsz) by ring.
  reflexivity.
Qed.

(** Through [Str()] and [Length()] one reads what [ToStdString] returns,
    and the slot behind it is the one at [m_ptr + m_length], or the
    handle's own NUL when the handle is empty. *)
Lemma Str_view (m : Memory) (h : String) :
  0 <= m_length h ->
  wstring_from P m (Str h) 0 (Z.to_nat (Length h))
  = Some (ToStdString P m h) /\
  load P m (Str h) (Length h)
  = Some (if IsEmpty h then 0 else m (m_ptr h + m_length h * wsz)).
Proof.
  intros Hl. unfold Str, ToStdString, Length, IsEmpty.
  destruct (Z.eqb_spec (m_length h) 0) as [E|E]; simpl.
  - rewrite E. simpl. split; reflexivity.
  - rewrite wstring_from_InPool, Z.mul_0_l, Z.add_0_r. split; reflexivity.
Qed.

End StrFacts.

(** X12. The pointer [Str()] returns for a handle that [AllocString] has
    just returned leads to the allocated text followed by a NUL:
    [std::wstring(h.Str(), h.Length())] is the sequence given, and the
    character behind it is 0.  For the empty sequence [Str()] is the
    address of the handle's own [m_nul], not the slot in the pool. *)
Theorem Str_is_nul_terminated_text (P : Platform) (malloc : Provider)
    (fuel : nat) (s : list wchar_t) (w : World) (h : String) :
  platform_ok P ->
  fst (AllocString P malloc fuel s w) = Return h ->
  let m := chars (snd (AllocString P malloc fuel s w)) in
  wstring_from P m (Str h) 0 (Z.to_nat (Length h)) = Some s /\
  load P m (Str h) (Length h) = Some 0 /\
  (s = [] -> Str h = OwnNul) /\
  (s <> [] -> Str h = InPool (m_ptr h)).
Proof.
  intros HP Hret m.
  destruct (AllocString_reads_back P malloc HP fuel s w h Hret) as [Hr Ht].
  destruct (AllocString_Return P malloc fuel s w h Hret) as (_ & Hl & _).
  fold m in Hr, Ht.
  assert (H0 : 0 <= m_length h) by lia.
  destruct (Str_view P m h H0) as [Hv Hn].
  rewrite Hr in Hv. split; [exact Hv|]. split.
  - rewrite Hn, Ht. destruct (IsEmpty h); reflexivity.
  - unfold Str, IsEmpty. rewrite Hl. destruct s; simpl List.length.
    + split; [reflexivity | congruence].
    + split; [discriminate|]. intros _.
      destruct (Z.eqb_spec (Z.of_nat (S (List.length s))) 0); [lia|reflexivity].
Qed.

Lemma Str_is_nul_terminated_text_witness :
  let w1 := snd (AllocString lp64 bump_malloc 2 [72; 105] empty_world) in
  fst (AllocString lp64 bump_malloc 2 [72; 105] empty_world)
    = Return (mkString 4112 2) /\
  wstring_from lp64 (chars w1) (Str (mkString 4112 2)) 0 2%nat
    = Some [72; 105] /\
  load lp64 (chars w1) (Str (mkString 4112 2)) 2 = Some 0.
Proof.
  intros w1.
  assert (Hret : fst (AllocString lp64 bump_malloc 2 [72; 105] empty_world)
                 = Return (mkString 4112 2)) by (vm_compute; reflexivity).
  destruct (Str_is_nul_terminated_text lp64 bump_malloc 2 [72; 105]
              empty_world _ lp64_ok Hret) as (Hv & Hn & _).
  split; [exact Hret|]. split; [exact Hv | exact Hn].
Defined.

Section CStringFacts.

Variable P : Platform.
Variable malloc : Provider.
Hypothesis HP : platform_ok P.

Local Abbreviation wsz := (sizeof_wchar_t P).


Hypothesis Hfresh : provider_fresh malloc.




End CStringFacts.



(** ** Batches *)

Section BatchFacts.

Variable P : Platform.
Variable malloc : Provider.
Hypothesis HP : platform_ok P.

Local Abbreviation wsz := (sizeof_wchar_t P).
Local Abbreviation hdr := (sizeof_ChunkHeader P).

Lemma slots_of_nonneg (ss : list (list wchar_t)) : 0 <= slots_of ss.
Proof. induction ss as [|s ss IH]; simpl; lia. Qed.

Lemma AllocStrings_cons (fuel : nat) (s : list wchar_t)
    (ss : list (list wchar_t)) (w : World) (h : String) (hs : list String) :
  fst (AllocString P malloc fuel s w) = Return h ->
  fst (AllocStrings P malloc fuel ss (snd (AllocString P malloc fuel s w)))
    = Return hs ->
  fst (AllocStrings P malloc fuel (s :: ss) w) = Return (h :: hs) /\
  snd (AllocStrings P malloc fuel (s :: ss) w)
  = snd (AllocStrings P malloc fuel ss (snd (AllocString P malloc fuel s w))).
Proof.
  simpl. destruct (AllocString P malloc fuel s w) as [[h'|e|] w1]; simpl;
    intros H1; inversion H1; subst.
  destruct (AllocStrings P malloc fuel ss w1) as [[hs'|e|] w2]; simpl;
    intros H2; inversion H2; subst. split; reflexivity.
Qed.

(** A batch that fits what is left of the active chunk is carved from it
    back to back. *)
Lemma AllocStrings_carved (fuel : nat) (ss : list (list wchar_t)) :
  (2 <= fuel)%nat ->
  forall w,
    pool_inv P w ->
    slots_of ss * wsz <= m_pLimit (pool w) - m_pNext (pool w) ->
    let w' := snd (AllocStrings P malloc fuel ss w) in
    fst (AllocStrings P malloc fuel ss w)
      = Return (layout P (m_pNext (pool w)) ss) /\
    m_chunks (pool w') = m_chunks (pool w) /\
    live w' = live w /\
    m_pNext (pool w') = m_pNext (pool w) + slots_of ss * wsz /\
    m_pLimit (pool w') = m_pLimit (pool w).
Proof.
  intros Hf. pose proof (wchar_size_cases P HP) as Hw.
  induction ss as [|s ss IH]; intros w Hinv Hfree.
  - simpl. repeat split; try reflexivity. lia.
  - pose proof (slots_of_nonneg ss) as Hnn.
    pose proof (free_slots_bound P HP w Hinv) as Hbound.
    cbn [slots_of] in Hfree.
    assert (Hs : size_t_wrap P (Z.of_nat (List.length s) + 1)
                 = Z.of_nat (List.length s) + 1).
    { apply (slots_exact P HP). unfold kMaxStringLength in Hbound. nia. }
    destruct (AllocString_carves P malloc HP fuel Hf s w) as (Hh & Hp & Hl).
    { rewrite Hs. apply (fits_true P). nia. }
    rewrite Hs in Hp.
    pose proof (pool_inv_AllocString P malloc HP fuel s w Hf Hinv) as Hinv1.
    specialize (IH _ Hinv1).
    rewrite Hp, Hl in IH. unfold carved in IH; simpl in IH.
    destruct IH as (I1 & I2 & I3 & I4 & I5); [nia|].
    destruct (AllocStrings_cons fuel s ss w _ _ Hh I1) as [E1 E2].
    cbv zeta. rewrite E1, E2, I2, I3, I4, I5. cbn [layout slots_of].
    repeat split; try reflexivity. ring.
Qed.

End BatchFacts.

(** X15. A batch of strings whose slots (characters and terminators) fit
    between [m_pNext] and [m_pLimit] is allocated without a single
    request to the provider and without a new chunk: every call returns,
    the strings lie back to back from the old [m_pNext] on, each
    separated from the next by its terminator only, and [m_pNext] has
    advanced by exactly the slots of the batch. *)
Theorem batch_is_carved_back_to_back (P : Platform) (malloc : Provider)
    (fuel : nat) (ss : list (list wchar_t)) (w : World) :
  platform_ok P -> (2 <= fuel)%nat -> reachable P malloc w ->
  slots_of ss * sizeof_wchar_t P <= m_pLimit (pool w) - m_pNext (pool w) ->
  let w' := snd (AllocStrings P malloc fuel ss w) in
  fst (AllocStrings P malloc fuel ss w)
    = Return (layout P (m_pNext (pool w)) ss) /\
  m_chunks (pool w') = m_chunks (pool w) /\
  live w' = live w /\
  m_pNext (pool w') = m_pNext (pool w) + slots_of ss * sizeof_wchar_t P.
Proof.
  intros HP Hf Hr Hfree.
  destruct (AllocStrings_carved P malloc HP fuel ss Hf w
              (reachable_pool_inv P malloc HP w Hr) Hfree)
    as (H1 & H2 & H3 & H4 & _).
  repeat split; assumption.
Qed.

Lemma batch_is_carved_back_to_back_witness :
  let w := snd (AllocString lp64 bump_malloc 2 [72; 105] empty_world) in
  let ss : list (list wchar_t) := [[98; 97]; []; [65]] in
  m_pNext (pool w) = 4124 /\
  fst (AllocStrings lp64 bump_malloc 2 ss w)
    = Return [mkString 4124 2; mkString 4136 0; mkString 4140 1] /\
  m_chunks (pool (snd (AllocStrings lp64 bump_malloc 2 ss w)))
    = m_chunks (pool w).
Proof.
  intros w ss.
  pose proof (reach_AllocString lp64 bump_malloc 2 [72; 105] empty_world
                (le_n 2) (reach_new lp64 bump_malloc [] (fun _ => 0))) as Hr.
  assert (Hfree : slots_of ss * sizeof_wchar_t lp64
                  <= m_pLimit (pool w) - m_pNext (pool w))
    by (vm_compute; discriminate).
  destruct (batch_is_carved_back_to_back lp64 bump_malloc 2 ss _ lp64_ok
              (le_n 2) Hr Hfree) as (H1 & H2 & _).
  split; [vm_compute; reflexivity|]. split; [|exact H2].
  etransitivity; [exact H1|]. vm_compute. reflexivity.
Defined.





(** ** The NUL-terminated overload *)

Lemma wcslen_le_length (src : list wchar_t) : (wcslen src <= List.length src)%nat.
Proof.
  induction src as [|c src IH]; simpl; [apply le_n|].
  destruct (c =? 0); [apply Nat.le_0_l | apply le_n_S, IH].
Qed.

Lemma wcslen_app_nul (s rest : list wchar_t) :
  ~ In 0 s -> wcslen (s ++ 0 :: rest) = List.length s.
Proof.
  induction s as [|c s IH]; intros Hs; simpl; [reflexivity|].
  destruct (Z.eqb_spec c 0) as [E|E].
  - exfalso. apply Hs. left. exact E.
  - f_equal. apply IH. intros H. apply Hs. now right.
Qed.

Lemma firstn_wcslen_no_nul (src : list wchar_t) :
  ~ In 0 (firstn (wcslen src) src).
Proof.
  induction src as [|c src IH]; simpl; [intros []|].
  destruct (Z.eqb_spec c 0) as [E|E]; simpl; [intros []|].
  intros [H|H]; [exact (E H) | exact (IH H)].
Qed.

(** X18. [AllocString(ptr)] allocates the characters before the first
    NUL found from [ptr] on and nothing behind it: the handle reads back
    as that prefix, contains no NUL, and has [wcslen(ptr)] characters;
    the call is the range overload applied to that prefix.  (The range
    overload itself keeps embedded NULs.) *)
Theorem AllocString_sz_stops_at_first_nul (P : Platform) (malloc : Provider)
    (fuel : nat) (src : list wchar_t) (w : World) (h : String) :
  platform_ok P ->
  fst (AllocString_sz P malloc fuel src w) = Return h ->
  let text := ToStdString P (chars (snd (AllocString_sz P malloc fuel src w))) h in
  text = firstn (wcslen src) src /\
  ~ In 0 text /\
  Length h = Z.of_nat (wcslen src) /\
  (forall s rest : list wchar_t, src = s ++ 0 :: rest -> ~ In 0 s ->
     text = s /\
     AllocString_sz P malloc fuel src w = AllocString P malloc fuel s w).
Proof.
  intros HP Hret text. unfold AllocString_sz in *.
  destruct (AllocString_reads_back P malloc HP fuel _ w h Hret) as [Hr _].
  destruct (AllocString_Return P malloc fuel _ w h Hret) as (_ & Hl & _).
  fold text in Hr.
  split; [exact Hr|]. split; [rewrite Hr; apply firstn_wcslen_no_nul|]. split.
  - unfold Length. rewrite Hl, length_firstn.
    rewrite Nat.min_l by apply wcslen_le_length. reflexivity.
  - intros s rest -> Hs.
    assert (E : firstn (wcslen (s ++ 0 :: rest)) (s ++ 0 :: rest) = s).
    { rewrite (wcslen_app_nul s rest Hs), firstn_app, Nat.sub_diag. simpl.
      rewrite firstn_all, app_nil_r. reflexivity. }
    rewrite Hr, E. split; reflexivity.
Qed.

Lemma AllocString_sz_stops_at_first_nul_witness :
  let src : list wchar_t := [72; 105; 0; 33; 0] in
  let w' := snd (AllocString_sz lp64 bump_malloc 2 src empty_world) in
  fst (AllocString_sz lp64 bump_malloc 2 src empty_world)
    = Return (mkString 4112 2) /\
  ToStdString lp64 (chars w') (mkString 4112 2) = [72; 105] /\
  ToStdString lp64
    (chars (snd (AllocString lp64 bump_malloc 2 src empty_world)))
    (mkString 4112 5) = src.
Proof.
  intros src w'.
  assert (Hret : fst (AllocString_sz lp64 bump_malloc 2 src empty_world)
                 = Return (mkString 4112 2)) by (vm_compute; reflexivity).
  split; [exact Hret|]. split; [|vm_compute; reflexivity].
  exact (proj1 (AllocString_sz_stops_at_first_nul lp64 bump_malloc 2 src
                  empty_world _ lp64_ok Hret)).
Defined.

Lemma AllocString_sz_c_str (P : Platform) (malloc : Provider) (fuel : nat)
    (s : list wchar_t) (w : World) :
  ~ In 0 s ->
  AllocString_sz P malloc fuel (c_str s) w = AllocString P malloc fuel s w.
Proof.
  intros Hs. unfold AllocString_sz, c_str.
  pose proof (wcslen_app_nul s [] Hs) as Hw.
  unfold wchar_t in *. rewrite Hw, firstn_app, Nat.sub_diag. simpl.
  rewrite firstn_all, app_nil_r. reflexivity.
Qed.

Lemma fill_pool_c_str (P : Platform) (malloc : Provider) (fuel : nat)
    (ss : list (list wchar_t)) :
  Forall (fun s => ~ In 0 s) ss ->
  forall w,
    fill_pool P malloc fuel (map c_str ss) w = AllocStrings P malloc fuel ss w.
Proof.
  induction 1 as [|s ss Hs _ IH]; intros w; simpl; [reflexivity|].
  rewrite (AllocString_sz_c_str P malloc fuel s w Hs).
  destruct (AllocString P malloc fuel s w) as [[h|e|] w1]; try reflexivity.
  rewrite IH. reflexivity.
Qed.

(** X14. The sanity check of the benchmark holds for every vector of
    strings that are free of NULs and within the ceiling: after the loop
    that fills the vector of handles from the strings' [c_str()]
    pointers, handle and string vectors have the same size, and each
    [std::wstring(pool[i].Str(), pool[i].Length())] is the string it was
    allocated from, also for the strings allocated first. *)
Theorem benchmark_sanity_check_passes (P : Platform) (malloc : Provider)
    (fuel : nat) (ss : list (list wchar_t)) (w : World) (hs : list String) :
  platform_ok P -> provider_fresh malloc -> (2 <= fuel)%nat ->
  reachable P malloc w ->
  Forall (fun s => ~ In 0 s) ss ->
  Forall (fun s => Z.of_nat (List.length s) <= kMaxStringLength) ss ->
  fst (fill_pool P malloc fuel (map c_str ss) w) = Return hs ->
  let m := chars (snd (fill_pool P malloc fuel (map c_str ss) w)) in
  List.length hs = List.length ss /\
  Forall2 (fun h s =>
             wstring_from P m (Str h) 0 (Z.to_nat (Length h)) = Some s)
          hs ss.
Proof.
  intros HP Hfresh Hf Hr Hnul Hlen Hret m.
  unfold m. rewrite (fill_pool_c_str P malloc fuel ss Hnul w) in Hret |- *.
  destruct (AllocStrings_designates P malloc fuel ss HP Hfresh Hf Hlen w hs
              (reachable_pool_inv P malloc HP w Hr) Hret) as [HF _].
  split; [exact (Forall2_length HF)|].
  eapply Forall2_impl; [|exact HF].
  intros h s D. cbv beta in D.
  destruct (designates_ToStdString P _ h s D) as [Hs H0].
  destruct (Str_view P (chars (snd (AllocStrings P malloc fuel ss w))) h H0)
    as [Hv _].
  rewrite Hs in Hv. exact Hv.
Qed.

Lemma benchmark_sanity_check_passes_witness :
  let ss : list (list wchar_t) := [[98; 97]; []; [65]] in
  let m := chars (snd (fill_pool lp64 bump_malloc 2 (map c_str ss)
                         empty_world)) in
  fst (fill_pool lp64 bump_malloc 2 (map c_str ss) empty_world)
    = Return [mkString 4112 2; mkString 4124 0; mkString 4128 1] /\
  Forall2 (fun h s =>
             wstring_from lp64 m (Str h) 0 (Z.to_nat (Length h)) = Some s)
          [mkString 4112 2; mkString 4124 0; mkString 4128 1] ss.
Proof.
  intros ss m.
  assert (Hret : fst (fill_pool lp64 bump_malloc 2 (map c_str ss) empty_world)
                 = Return [mkString 4112 2; mkString 4124 0; mkString 4128 1])
    by (vm_compute; reflexivity).
  assert (Hlen : Forall (fun s => Z.of_nat (List.length s) <= kMaxStringLength)
                        ss)
    by (repeat (apply Forall_cons; [vm_compute; discriminate|]);
        apply Forall_nil).
  assert (Hnul : Forall (fun s : list wchar_t => ~ In 0 s) ss).
  { repeat (apply Forall_cons;
            [simpl; intros H;
             repeat (destruct H as [H|H]; [discriminate H|]); exact H|]).
    apply Forall_nil. }
  split; [exact Hret|].
  exact (proj2 (benchmark_sanity_check_passes lp64 bump_malloc 2 ss empty_world
                  _ lp64_ok bump_malloc_fresh (le_n 2)
                  (reach_new lp64 bump_malloc [] (fun _ => 0)) Hnul Hlen Hret)).
Defined.

(** ** The allocator's blocks over its lifetime *)

Section LifetimeFacts.

Lemma filter_filter_and {A : Type} (f g : A -> bool) (l : list A) :
  filter f (filter g l) = filter (fun x => g x && f x) l.
Proof.
  induction l as [|x l IH]; simpl; [reflexivity|].
  destruct (g x); simpl; [destruct (f x); rewrite IH|]; auto.
Qed.

Lemma filter_all {A : Type} (f : A -> bool) (l : list A) :
  (forall x, In x l -> f x = true) -> filter f l = l.
Proof.
  induction l as [|x l IH]; intros H; simpl; [reflexivity|].
  rewrite (H x (or_introl eq_refl)), IH; [reflexivity|].
  intros y Hy. apply H. now right.
Qed.

Lemma filter_none {A : Type} (f : A -> bool) (l : list A) :
  (forall x, In x l -> f x = false) -> filter f l = [].
Proof.
  induction l as [|x l IH]; intros H; simpl; [reflexivity|].
  rewrite (H x (or_introl eq_refl)). apply IH.
  intros y Hy. apply H. now right.
Qed.

(** The loop of [Clear] keeps the blocks whose address is that of no
    chunk. *)
Lemma Free_all_filter (cs : list ChunkHeader) :
  forall lv,
    fold_left (fun lv pChunk => Free lv (chunk_addr pChunk)) cs lv
    = filter (fun b => forallb (fun c => negb (fst b =? chunk_addr c)) cs) lv.
Proof.
  induction cs as [|c cs IH]; intros lv; simpl.
  - symmetry. apply filter_all. reflexivity.
  - rewrite IH. unfold Free. apply filter_filter_and.
Qed.

Lemma Clear_restores (lv0 : list Block) (w : World) :
  owns_on_top_of lv0 w -> live (Clear w) = lv0.
Proof.
  intros [Hlive Hnot]. unfold Clear. simpl.
  rewrite Free_all_filter, Hlive, filter_app.
  rewrite filter_none, filter_all; [reflexivity | |].
  - intros b Hb. apply forallb_forall. intros c Hc.
    apply negb_true_iff, Z.eqb_neq. intros E.
    rewrite Forall_forall in Hnot. apply (Hnot c Hc).
    rewrite <- E. apply in_map, Hb.
  - intros b Hb. apply in_map_iff in Hb. destruct Hb as (c & <- & Hc).
    apply in_rev in Hc. apply not_true_is_false. intros Hall.
    rewrite forallb_forall in Hall. specialize (Hall c Hc).
    simpl in Hall. rewrite Z.eqb_refl in Hall. discriminate Hall.
Qed.

End LifetimeFacts.

Lemma AllocStrings_ordering_witness :
  let ss : list (list wchar_t) :=
    [[98; 97; 110]; [65; 112]; [97; 112]; [66; 97]] in
  let m := chars (snd (AllocStrings lp64 bump_malloc 2 ss empty_world)) in
  fst (AllocStrings lp64 bump_malloc 2 ss empty_world)
    = Return [mkString 4112 3; mkString 4128 2; mkString 4140 2;
              mkString 4152 2] /\
  Z.sgn (Compare lp64 m (mkString 4112 3) (mkString 4128 2)) = 1 /\
  Z.sgn (Compare lp64 m (mkString 4128 2) (mkString 4152 2)) = -1.
Proof.
  intros ss m.
  assert (Hret : fst (AllocStrings lp64 bump_malloc 2 ss empty_world)
                 = Return [mkString 4112 3; mkString 4128 2; mkString 4140 2;
                           mkString 4152 2]) by (vm_compute; reflexivity).
  assert (Hlen : Forall (fun s => Z.of_nat (List.length s) <= kMaxStringLength)
                        ss)
    by (repeat (apply Forall_cons; [vm_compute; discriminate|]);
        apply Forall_nil).
  pose proof (AllocStrings_ordering lp64 bump_malloc 2 ss empty_world _
                lp64_ok bump_malloc_fresh (le_n 2)
                (reach_new lp64 bump_malloc [] (fun _ => 0)) Hlen Hret) as H.
  split; [exact Hret|]. split.
  - exact (H 0%nat 1%nat _ _ _ _ eq_refl eq_refl eq_refl eq_refl).
  - exact (H 1%nat 3%nat _ _ _ _ eq_refl eq_refl eq_refl eq_refl).
Defined.

(** * The allocator with everything that can go wrong *)

Section ExactStepFacts.

Variable P : Platform.
Variable malloc : Provider.
Variable push_back_ok : Exact.VectorOracle.
Variable size_image : Exact.SizeImage.
Hypothesis HP : platform_ok P.
Hypothesis Hrange : Exact.provider_in_range P malloc.

Local Abbreviation wsz := (sizeof_wchar_t P).
Local Abbreviation hdr := (sizeof_ChunkHeader P).
Local Abbreviation M := (SIZE_MODULUS P).

Local Ltac sizes :=
  pose proof (wchar_size_cases P HP);
  pose proof (header_size_cases P HP);
  unfold kMaxStringLength, kMinChunkSizeInBytes in *.

Lemma ptr_add_small (p n : Z) :
  0 <= p + n < M -> Exact.ptr_add P p n = p + n.
Proof. intros H. unfold Exact.ptr_add. apply Z.mod_small. exact H. Qed.

Lemma exact_fits_unbounded (a : Allocator) (length : Z) :
  0 <= m_pNext a + length * wsz < M ->
  Exact.fits P a length = fits P a length.
Proof. intros H. unfold Exact.fits, fits. rewrite ptr_add_small; trivial. Qed.

(** One invocation of [AllocMemory], with the nested one left folded. *)
Lemma exact_AllocMemory_step (fuel : nat) (length : Z) (w : World) :
  Exact.AllocMemory P malloc push_back_ok size_image (S fuel) length w =
  if Exact.fits P (pool w) length
  then (Exact.Returned (m_pNext (pool w)), Exact.carved P w length)
  else if length >? kMaxStringLength then (Exact.Thrown Exact.AtLengthCheck, w)
  else if malloc (live w) (chunk_size_for P length) =? 0
       then (Exact.Thrown Exact.AtAllocate, w)
       else if push_back_ok (m_chunks (pool w))
            then Exact.AllocMemory P malloc push_back_ok size_image fuel length
                   (Exact.grown P malloc size_image w length)
            else (Exact.Thrown Exact.AtPushBack,
                  Exact.stranded P malloc size_image w length).
Proof.
  simpl. unfold Allocate, Exact.carved, Exact.grown, Exact.stranded.
  destruct (Exact.fits P (pool w) length); [reflexivity|].
  destruct (length >? kMaxStringLength); [reflexivity|].
  destruct (malloc (live w) (chunk_size_for P length) =? 0) eqn:E; simpl;
    rewrite ?E; reflexivity.
Qed.

(** What the new block looks like when the provider has granted it. *)
Lemma granted_block (w : World) (length : Z) :
  0 <= length <= kMaxStringLength ->
  malloc (live w) (chunk_size_for P length) <> 0 ->
  let p := malloc (live w) (chunk_size_for P length) in
  let cb := chunk_size_for P length in
  0 < p /\ p + cb < M /\ p + hdr + length * wsz <= p + cb /\
  Exact.ptr_add P p hdr = p + hdr /\ Exact.ptr_add P p cb = p + cb /\
  Exact.ptr_add P (p + hdr) (length * wsz) = p + hdr + length * wsz.
Proof.
  intros HL Hnz p cb.
  destruct (Hrange _ _ Hnz) as [Hp Hend]. fold p cb in Hp, Hend.
  pose proof (chunk_size_for_bounds P HP length HL) as (Hb1 & Hb2 & Hb3).
  fold cb in Hb1, Hb2, Hb3.
  assert (Hh : 0 <= hdr /\ 0 <= length * wsz) by (sizes; nia).
  repeat split; try lia; apply ptr_add_small; lia.
Qed.

(** The fresh chunk has room for the request it was created for. *)
Lemma exact_grown_fits (w : World) (length : Z) :
  0 <= length <= kMaxStringLength ->
  malloc (live w) (chunk_size_for P length) <> 0 ->
  Exact.fits P (pool (Exact.grown P malloc size_image w length)) length = true.
Proof.
  intros HL Hnz.
  destruct (granted_block w length HL Hnz) as (_ & _ & Hroom & E1 & E2 & E3).
  unfold Exact.fits, Exact.grown. simpl. rewrite E1, E2, E3.
  apply Z.leb_le. exact Hroom.
Qed.

(** With a budget of two invocations [AllocMemory] has run to its end. *)
Lemma exact_AllocMemory_closed (fuel : nat) (length : Z) (w : World) :
  (2 <= fuel)%nat -> 0 <= length ->
  Exact.AllocMemory P malloc push_back_ok size_image fuel length w =
  if Exact.fits P (pool w) length
  then (Exact.Returned (m_pNext (pool w)), Exact.carved P w length)
  else if length >? kMaxStringLength then (Exact.Thrown Exact.AtLengthCheck, w)
  else if malloc (live w) (chunk_size_for P length) =? 0
       then (Exact.Thrown Exact.AtAllocate, w)
       else if push_back_ok (m_chunks (pool w))
            then (Exact.Returned
                    (m_pNext (pool (Exact.grown P malloc size_image w length))),
                  Exact.carved P (Exact.grown P malloc size_image w length)
                    length)
            else (Exact.Thrown Exact.AtPushBack,
                  Exact.stranded P malloc size_image w length).
Proof.
  intros Hf HL. destruct fuel as [|[|fuel]]; try lia.
  rewrite exact_AllocMemory_step.
  destruct (Exact.fits P (pool w) length); [reflexivity|].
  destruct (Z.gtb_spec length kMaxStringLength) as [Hbig|Hsmall];
    [reflexivity|].
  destruct (Z.eqb_spec (malloc (live w) (chunk_size_for P length)) 0)
    as [Hz|Hnz]; [reflexivity|].
  destruct (push_back_ok (m_chunks (pool w))); [|reflexivity].
  rewrite exact_AllocMemory_step, exact_grown_fits; trivial. lia.
Qed.

(** [AllocString] follows [AllocMemory]. *)
Lemma exact_AllocString_unfold (fuel : nat) (s : list wchar_t) (w : World) :
  let slots := size_t_wrap P (Z.of_nat (List.length s) + 1) in
  let r := Exact.AllocMemory P malloc push_back_ok size_image fuel slots w in
  Exact.AllocString P malloc push_back_ok size_image fuel s w =
  match fst r with
  | Exact.Returned ptr =>
      (Exact.Returned (mkString ptr (Z.of_nat (List.length s))),
       mkWorld (pool (snd r)) (live (snd r))
         (store (Exact.wmemcpy P (chars (snd r)) ptr s (List.length s))
                (Exact.ptr_add P ptr (Z.of_nat (List.length s) * wsz)) 0))
  | Exact.Thrown site => (Exact.Thrown site, snd r)
  | Exact.OutOfBudget => (Exact.OutOfBudget, snd r)
  end.
Proof.
  intros slots r. unfold Exact.AllocString. fold slots. fold r.
  destruct r as [[ptr|site|] w1]; simpl; rewrite ?Nat2Z.id; reflexivity.
Qed.

End ExactStepFacts.

Section ExactCallFacts.

Variable P : Platform.
Variable malloc : Provider.
Variable push_back_ok : Exact.VectorOracle.
Variable size_image : Exact.SizeImage.
Hypothesis HP : platform_ok P.
Hypothesis Hrange : Exact.provider_in_range P malloc.

Local Abbreviation wsz := (sizeof_wchar_t P).
Local Abbreviation hdr := (sizeof_ChunkHeader P).
Local Abbreviation M := (SIZE_MODULUS P).

(** The five ways an [AllocString] call can go. *)
Lemma exact_AllocString_closed (fuel : nat) (s : list wchar_t) (w : World) :
  (2 <= fuel)%nat ->
  let slots := size_t_wrap P (Z.of_nat (List.length s) + 1) in
  let len := Z.of_nat (List.length s) in
  let g := Exact.grown P malloc size_image w slots in
  Exact.AllocString P malloc push_back_ok size_image fuel s w =
  if Exact.fits P (pool w) slots
  then (Exact.Returned (mkString (m_pNext (pool w)) len),
        Exact.written P (Exact.carved P w slots) (m_pNext (pool w)) s)
  else if slots >? kMaxStringLength then (Exact.Thrown Exact.AtLengthCheck, w)
  else if malloc (live w) (chunk_size_for P slots) =? 0
       then (Exact.Thrown Exact.AtAllocate, w)
       else if push_back_ok (m_chunks (pool w))
            then (Exact.Returned (mkString (m_pNext (pool g)) len),
                  Exact.written P (Exact.carved P g slots) (m_pNext (pool g)) s)
            else (Exact.Thrown Exact.AtPushBack,
                  Exact.stranded P malloc size_image w slots).
Proof.
  intros Hf slots len g.
  rewrite exact_AllocString_unfold. fold slots.
  rewrite (exact_AllocMemory_closed P malloc push_back_ok size_image HP Hrange
             fuel slots w Hf (size_t_wrap_nonneg P HP _)).
  destruct (Exact.fits P (pool w) slots); [reflexivity|].
  destruct (slots >? kMaxStringLength); [reflexivity|].
  destruct (malloc (live w) (chunk_size_for P slots) =? 0); [reflexivity|].
  destruct (push_back_ok (m_chunks (pool w))); reflexivity.
Qed.

(** Inside the address space the copy advances as an unbounded address. *)
Lemma exact_wmemcpy_unbounded (src : list wchar_t) :
  forall n m dest,
    0 <= dest -> dest + Z.of_nat (List.length src) * wsz < M ->
    Exact.wmemcpy P m dest src n = wmemcpy P m dest src n.
Proof.
  pose proof (wchar_size_pos P HP) as Hw.
  induction src as [|c src IH]; intros [|n] m dest H0 Hend; simpl;
    try reflexivity.
  simpl List.length in Hend.
  destruct src as [|c' src'].
  - destruct n; reflexivity.
  - rewrite (ptr_add_small P) by (simpl List.length in *; nia).
    apply IH; simpl List.length in *; nia.
Qed.

(** What a string written inside the address space reads back as. *)
Lemma exact_written_reads_back (w1 : World) (ptr : Z) (s : list wchar_t) :
  0 <= ptr -> ptr + (Z.of_nat (List.length s) + 1) * wsz < M ->
  let w' := Exact.written P w1 ptr s in
  read_chars P (chars w') ptr (List.length s) = s /\
  chars w' (ptr + Z.of_nat (List.length s) * wsz) = 0 /\
  (forall a, a < ptr \/ ptr + (Z.of_nat (List.length s) + 1) * wsz <= a ->
             chars w' a = chars w1 a).
Proof.
  pose proof (wchar_size_pos P HP) as Hw.
  intros H0 Hend w'. unfold w', Exact.written. simpl.
  rewrite exact_wmemcpy_unbounded by nia.
  rewrite (ptr_add_small P) by nia.
  split; [apply read_chars_allocated, HP|]. split.
  - unfold store. now rewrite Z.eqb_refl.
  - intros a Ha. apply (written_outside P HP). exact Ha.
Qed.

End ExactCallFacts.

Section ExactInvariantFacts.

Variable P : Platform.
Variable malloc : Provider.
Variable push_back_ok : Exact.VectorOracle.
Variable size_image : Exact.SizeImage.
Hypothesis HP : platform_ok P.
Hypothesis Hrange : Exact.provider_in_range P malloc.

Local Abbreviation wsz := (sizeof_wchar_t P).
Local Abbreviation hdr := (sizeof_ChunkHeader P).
Local Abbreviation M := (SIZE_MODULUS P).

Local Ltac sizes :=
  pose proof (wchar_size_cases P HP);
  pose proof (header_size_cases P HP);
  pose proof (size_modulus_large P HP);
  unfold kMaxStringLength, kMinChunkSizeInBytes in *.

Lemma pool_ok_bounds (w : World) :
  Exact.pool_ok P w ->
  0 <= m_pNext (pool w) /\
  m_pNext (pool w) <= m_pLimit (pool w) /\
  m_pLimit (pool w) < M /\
  m_pLimit (pool w) - m_pNext (pool w) <= kMaxStringLength * wsz.
Proof.
  intros [[E1 E2] | (b & n & _ & Hb & Hlo & Hle & Hlim & Hend & Hn)].
  - rewrite E1, E2. sizes. lia.
  - sizes. lia.
Qed.

(** What a call that does not wrap sees of the state it starts in. *)
Lemma no_wrap_facts (w : World) (s : list wchar_t) :
  Exact.pool_ok P w -> Exact.no_wrap P w s ->
  let slots := Z.of_nat (List.length s) + 1 in
  size_t_wrap P slots = slots /\
  Exact.fits P (pool w) slots
  = (m_pNext (pool w) + slots * wsz <=? m_pLimit (pool w)) /\
  Exact.ptr_add P (m_pNext (pool w)) (slots * wsz)
  = m_pNext (pool w) + slots * wsz /\
  (m_pNext (pool w) + slots * wsz <= m_pLimit (pool w) ->
   slots <= kMaxStringLength).
Proof.
  intros Hok Hnw slots. unfold Exact.no_wrap in Hnw. fold slots in Hnw.
  destruct (pool_ok_bounds w Hok) as (H0 & Hle & Hlim & Hfree).
  pose proof (wchar_size_cases P HP) as Hw.
  assert (Hs : 0 <= slots * wsz) by (unfold slots; nia).
  split; [unfold size_t_wrap; apply Z.mod_small; unfold slots in *; nia|].
  assert (Ea : Exact.ptr_add P (m_pNext (pool w)) (slots * wsz)
               = m_pNext (pool w) + slots * wsz)
    by (apply ptr_add_small; lia).
  split; [unfold Exact.fits; rewrite Ea; reflexivity|].
  split; [exact Ea|]. intros Hfit. nia.
Qed.

Lemma pool_ok_AllocString (fuel : nat) (s : list wchar_t) (w : World) :
  (2 <= fuel)%nat -> Exact.pool_ok P w -> Exact.no_wrap P w s ->
  Exact.pool_ok P
    (snd (Exact.AllocString P malloc push_back_ok size_image fuel s w)).
Proof.
  intros Hf Hok Hnw.
  destruct (no_wrap_facts w s Hok Hnw) as (Hs & Hfits & Hadd & Hceil).
  rewrite (exact_AllocString_closed P malloc push_back_ok size_image HP Hrange
             fuel s w Hf).
  rewrite Hs, Hfits.
  destruct (Z.leb_spec (m_pNext (pool w)
                        + (Z.of_nat (List.length s) + 1) * wsz)
                       (m_pLimit (pool w))) as [Hfit|Hnofit].
  - unfold Exact.pool_ok, Exact.written, Exact.carved. simpl. rewrite Hadd.
    destruct Hok as [[E1 E2] | (b & n & Hin & Hb & Hlo & Hle & Hlim & Hend & Hn)].
    + rewrite E1, E2 in Hfit. sizes. nia.
    + right. exists b, n. repeat split; try assumption; sizes; nia.
  - destruct (Z.gtb_spec (Z.of_nat (List.length s) + 1) kMaxStringLength)
      as [Hbig|Hsmall]; [exact Hok|].
    destruct (Z.eqb_spec (malloc (live w)
                (chunk_size_for P (Z.of_nat (List.length s) + 1))) 0)
      as [Hz|Hnz]; [exact Hok|].
    assert (HL : 0 <= Z.of_nat (List.length s) + 1 <= kMaxStringLength) by lia.
    destruct (granted_block P malloc HP Hrange w _ HL Hnz)
      as (Hp & Hend & Hroom & E1 & E2 & E3).
    pose proof (chunk_size_for_bounds P HP _ HL) as (Hb1 & Hb2 & Hb3).
    destruct (push_back_ok (m_chunks (pool w))).
    + unfold Exact.pool_ok, Exact.written, Exact.carved, Exact.grown. simpl.
      rewrite E1, E2, E3. right.
      exists (malloc (live w) (chunk_size_for P (Z.of_nat (List.length s) + 1))),
             (chunk_size_for P (Z.of_nat (List.length s) + 1)).
      repeat split; try assumption; try (now left); sizes; nia.
    + unfold Exact.pool_ok, Exact.stranded. simpl. rewrite E1, E2. right.
      exists (malloc (live w) (chunk_size_for P (Z.of_nat (List.length s) + 1))),
             (chunk_size_for P (Z.of_nat (List.length s) + 1)).
      repeat split; try assumption; try (now left); sizes; nia.
Qed.

Lemma exact_reachable_pool_ok (w : World) :
  Exact.reachable P malloc push_back_ok size_image w -> Exact.pool_ok P w.
Proof.
  induction 1 as [lv m | fuel s w Hf _ IH Hnw | w _ _].
  - left. split; reflexivity.
  - apply pool_ok_AllocString; assumption.
  - left. split; reflexivity.
Qed.

End ExactInvariantFacts.

Lemma bounded_malloc_in_range (P : Platform) :
  Exact.provider_in_range P (Exact.bounded_malloc P).
Proof.
  intros lv cb. unfold Exact.bounded_malloc.
  destruct (Z.ltb_spec (bump_malloc lv cb + cb) (SIZE_MODULUS P)) as [H|H];
    [|intros E; now contradiction E].
  intros _. split; [|exact H].
  unfold bump_malloc. clear H.
  induction lv as [|x lv IH]; simpl; lia.
Defined.

Lemma bounded_malloc_fresh (P : Platform) :
  provider_fresh (Exact.bounded_malloc P).
Proof.
  intros lv cb b n Hnz Hin. unfold Exact.bounded_malloc in *.
  destruct (bump_malloc lv cb + cb <? SIZE_MODULUS P);
    [|now contradiction Hnz].
  apply bump_malloc_fresh; assumption.
Defined.

(** C1 (the round trip and where it ends). In every reachable state, for a
    sequence below the ceiling whose slots are granted (they fit the
    active chunk, or the provider supplies the block and the chunk vector
    grows), [AllocString] returns a handle that converts back to exactly
    the sequence, with its length, and is [IsEmpty] exactly for the empty
    sequence.  For a sequence of [kMaxStringLength] characters or more the
    call throws at the length check and leaves the state as it was: at
    [len(s) = kMaxStringLength], which the ceiling allows, there is no
    handle to convert. *)
Theorem round_trip_ends_below_the_ceiling (P : Platform) (malloc : Provider)
    (push_back_ok : Exact.VectorOracle) (size_image : Exact.SizeImage)
    (fuel : nat) (s : list wchar_t) (w : World) :
  platform_ok P -> Exact.provider_in_range P malloc -> (2 <= fuel)%nat ->
  Exact.reachable P malloc push_back_ok size_image w ->
  Exact.no_wrap P w s ->
  let slots := Z.of_nat (List.length s) + 1 in
  let r := Exact.AllocString P malloc push_back_ok size_image fuel s w in
  (Z.of_nat (List.length s) < kMaxStringLength ->
   m_pNext (pool w) + slots * sizeof_wchar_t P <= m_pLimit (pool w) \/
   (malloc (live w) (chunk_size_for P slots) <> 0 /\
    push_back_ok (m_chunks (pool w)) = true) ->
   exists h,
     fst r = Exact.Returned h /\
     ToStdString P (chars (snd r)) h = s /\
     Length h = Z.of_nat (List.length s) /\
     (IsEmpty h = true <-> s = [])) /\
  (kMaxStringLength <= Z.of_nat (List.length s) ->
   r = (Exact.Thrown Exact.AtLengthCheck, w)).
Proof.
  intros HP Hrange Hf Hr Hnw slots r. subst r.
  pose proof (exact_reachable_pool_ok P malloc push_back_ok size_image HP
                Hrange w Hr) as Hok.
  destruct (no_wrap_facts P HP w s Hok Hnw) as (Hs & Hfits & Hadd & Hceil).
  destruct (pool_ok_bounds P HP w Hok) as (H0 & _ & _ & _).
  pose proof (wchar_size_cases P HP) as Hw.
  assert (Hempty : forall h : String,
            m_length h = Z.of_nat (List.length s) ->
            (IsEmpty h = true <-> s = [])).
  { intros h Hl. unfold IsEmpty. rewrite Hl, Z.eqb_eq.
    destruct s; simpl List.length; [tauto|]. split; [lia | discriminate]. }
  rewrite (exact_AllocString_closed P malloc push_back_ok size_image HP Hrange
             fuel s w Hf).
  cbv zeta. rewrite Hs, Hfits. fold slots. fold slots in Hceil, Hnw.
  destruct (Z.leb_spec (m_pNext (pool w) + slots * sizeof_wchar_t P)
                       (m_pLimit (pool w))) as [Hfit|Hnofit].
  - split; [|intros Hbig; specialize (Hceil Hfit); unfold slots in Hceil; lia].
    intros _ _. eexists. split; [reflexivity|]. simpl fst. simpl snd.
    destruct (exact_written_reads_back P HP (Exact.carved P w slots)
                (m_pNext (pool w)) s H0 Hnw) as (Hread & _).
    rewrite ToStdString_read. simpl m_ptr. simpl m_length. rewrite Nat2Z.id.
    split; [exact Hread|]. split; [reflexivity | apply Hempty; reflexivity].
  - destruct (Z.gtb_spec slots kMaxStringLength) as [Hbig|Hsmall].
    { split; [unfold slots in Hbig; lia | reflexivity]. }
    split; [|unfold slots in Hsmall; lia].
    intros _ [Hfit | [Hnz Hpush]]; [lia|].
    apply Z.eqb_neq in Hnz. rewrite Hnz, Hpush. apply Z.eqb_neq in Hnz.
    assert (HL : 0 <= slots <= kMaxStringLength) by (unfold slots in *; lia).
    destruct (granted_block P malloc HP Hrange w slots HL Hnz)
      as (Hp & Hend & Hroom & E1 & E2 & E3).
    eexists. split; [reflexivity|]. simpl fst. simpl snd.
    assert (Eg : m_pNext (pool (Exact.grown P malloc size_image w slots))
                 = malloc (live w) (chunk_size_for P slots)
                   + sizeof_ChunkHeader P) by exact E1.
    rewrite Eg.
    destruct (exact_written_reads_back P HP
                (Exact.carved P (Exact.grown P malloc size_image w slots) slots)
                (malloc (live w) (chunk_size_for P slots) + sizeof_ChunkHeader P)
                s) as (Hread & _).
    { pose proof (header_size_cases P HP). lia. }
    { lia. }
    rewrite ToStdString_read. simpl m_ptr. simpl m_length. rewrite Nat2Z.id.
    rewrite ?E1.
    split; [exact Hread|]. split; [reflexivity | apply Hempty; reflexivity].
Qed.

Lemma round_trip_ends_below_the_ceiling_witness :
  let s : list wchar_t := [72; 105] in
  let run := Exact.AllocString lp64 (Exact.bounded_malloc lp64)
               Exact.vector_grows (Exact.little_endian lp64) 2 in
  (exists h, fst (run s empty_world) = Exact.Returned h /\
             ToStdString lp64 (chars (snd (run s empty_world))) h = s) /\
  Z.of_nat (List.length ceiling_string) <= kMaxStringLength /\
  run ceiling_string empty_world = (Exact.Thrown Exact.AtLengthCheck, empty_world).
Proof.
  intros s run.
  pose proof (Exact.reach_new lp64 (Exact.bounded_malloc lp64)
                Exact.vector_grows (Exact.little_endian lp64) [] (fun _ => 0))
    as Hr.
  assert (Hlen : Z.of_nat (List.length ceiling_string) = kMaxStringLength).
  { unfold ceiling_string. rewrite repeat_length. apply Z2Nat.id.
    unfold kMaxStringLength. lia. }
  assert (Hnw1 : Exact.no_wrap lp64 empty_world s) by (vm_compute; reflexivity).
  assert (Hnw2 : Exact.no_wrap lp64 empty_world ceiling_string).
  { unfold Exact.no_wrap. rewrite Hlen. vm_compute. reflexivity. }
  split; [|split].
  - destruct (proj1 (round_trip_ends_below_the_ceiling lp64
                       (Exact.bounded_malloc lp64) Exact.vector_grows
                       (Exact.little_endian lp64) 2 s empty_world lp64_ok
                       (bounded_malloc_in_range lp64) (le_n 2) Hr Hnw1))
      as (h & Hh & Hread & _).
    + vm_compute. reflexivity.
    + right. split; [vm_compute; discriminate | reflexivity].
    + exists h. split; assumption.
  - rewrite Hlen. apply Z.le_refl.
  - apply (proj2 (round_trip_ends_below_the_ceiling lp64
                    (Exact.bounded_malloc lp64) Exact.vector_grows
                    (Exact.little_endian lp64) 2 ceiling_string empty_world
                    lp64_ok (bounded_malloc_in_range lp64) (le_n 2) Hr Hnw2)).
    rewrite Hlen. apply Z.le_refl.
Defined.

(** C5 (the call that fails half way). On a new allocator asked for the
    two-character string "Hi", with a provider that grants the block and
    a chunk vector that cannot grow, [AllocString] throws from
    [m_chunks.push_back] with the state changed: [m_pNext] and [m_pLimit]
    point into the new block, the block is live but no chunk records it,
    and neither [Clear] nor the destructor frees it afterwards. *)
Theorem push_back_failure_leaves_a_changed_state :
  let r := Exact.AllocString lp64 (Exact.bounded_malloc lp64)
             Exact.vector_exhausted (Exact.little_endian lp64) 2 [72; 105]
             empty_world in
  fst r = Exact.Thrown Exact.AtPushBack /\
  pool (snd r) = mkAllocator 4112 604096 [] /\
  live (snd r) = [(4096, 600000)] /\
  pool (snd r) <> pool empty_world /\
  live (snd r) <> live empty_world /\
  live (Clear (snd r)) = [(4096, 600000)] /\
  live (Allocator_destroy (snd r)) = [(4096, 600000)].
Proof.
  cbv zeta.
  assert (Ep : pool (snd (Exact.AllocString lp64 (Exact.bounded_malloc lp64)
                            Exact.vector_exhausted (Exact.little_endian lp64) 2
                            [72; 105] empty_world))
               = mkAllocator 4112 604096 []) by (vm_compute; reflexivity).
  assert (El : live (snd (Exact.AllocString lp64 (Exact.bounded_malloc lp64)
                            Exact.vector_exhausted (Exact.little_endian lp64) 2
                            [72; 105] empty_world))
               = [(4096, 600000)]) by (vm_compute; reflexivity).
  split; [vm_compute; reflexivity|]. split; [exact Ep|]. split; [exact El|].
  split; [rewrite Ep; discriminate|]. split; [rewrite El; discriminate|].
  split; vm_compute; reflexivity.
Qed.

(** The state a throwing call leaves, for every call in a reachable
    state: the two [throw] statements leave everything as it was, the
    throw of [push_back] leaves cursor and limit in a block that no chunk
    records. *)
Lemma state_after_a_throw (P : Platform) (malloc : Provider)
    (push_back_ok : Exact.VectorOracle) (size_image : Exact.SizeImage)
    (fuel : nat) (s : list wchar_t) (w : World) :
  platform_ok P -> Exact.provider_in_range P malloc ->
  provider_fresh malloc -> (2 <= fuel)%nat ->
  Exact.reachable P malloc push_back_ok size_image w ->
  let r := Exact.AllocString P malloc push_back_ok size_image fuel s w in
  let cb := chunk_size_for P (size_t_wrap P (Z.of_nat (List.length s) + 1)) in
  let p := malloc (live w) cb in
  (fst r = Exact.Thrown Exact.AtLengthCheck \/
   fst r = Exact.Thrown Exact.AtAllocate -> snd r = w) /\
  (fst r = Exact.Thrown Exact.AtPushBack ->
   m_chunks (pool (snd r)) = m_chunks (pool w) /\
   m_pNext (pool (snd r)) = p + sizeof_ChunkHeader P /\
   m_pLimit (pool (snd r)) = p + cb /\
   m_pLimit (pool (snd r)) <> m_pLimit (pool w) /\
   live (snd r) = (p, cb) :: live w).
Proof.
  intros HP Hrange Hfresh Hf Hr r cb p.
  pose proof (exact_reachable_pool_ok P malloc push_back_ok size_image HP
                Hrange w Hr) as Hok.
  unfold r.
  rewrite (exact_AllocString_closed P malloc push_back_ok size_image HP Hrange
             fuel s w Hf).
  cbv zeta. fold cb. fold p.
  destruct (Exact.fits P (pool w) _).
  { simpl. split; [intros [H|H]; discriminate H | discriminate]. }
  destruct (Z.gtb_spec (size_t_wrap P (Z.of_nat (List.length s) + 1))
                       kMaxStringLength) as [Hbig|Hsmall].
  { simpl. split; [reflexivity | discriminate]. }
  destruct (Z.eqb_spec p 0) as [Hz|Hnz].
  { simpl. split; [reflexivity | discriminate]. }
  assert (HL : 0 <= size_t_wrap P (Z.of_nat (List.length s) + 1)
               <= kMaxStringLength)
    by (split; [apply size_t_wrap_nonneg, HP | exact Hsmall]).
  destruct (granted_block P malloc HP Hrange w _ HL Hnz)
    as (Hp & _ & _ & E1 & E2 & _).
  fold cb in E1, E2, Hp. fold p in E1, E2, Hp.
  pose proof (chunk_size_for_bounds P HP _ HL) as (_ & Hmin & _).
  fold cb in Hmin. unfold kMinChunkSizeInBytes in Hmin.
  destruct (push_back_ok (m_chunks (pool w))).
  { simpl. split; [intros [H|H]; discriminate H | discriminate]. }
  simpl. fold cb. fold p. rewrite E1, E2.
  split; [intros [H|H]; discriminate H|]. intros _.
  split; [reflexivity|]. split; [reflexivity|]. split; [reflexivity|].
  split; [|reflexivity].
  pose proof (header_size_cases P HP) as Hh.
  destruct Hok as [[_ E] | (b & n & Hin & Hb & Hlo & Hle & Hlim & _)].
  - rewrite E. lia.
  - pose proof (Hfresh (live w) cb b n Hnz Hin) as Hdisj. fold p in Hdisj.
    lia.
Qed.

Lemma exhausted_malloc_in_range (P : Platform) :
  Exact.provider_in_range P exhausted_malloc.
Proof. intros lv cb H. now contradiction H. Defined.

Lemma size_field_inside_header (P : Platform) :
  platform_ok P -> 0 < sizeof_size_t P <= sizeof_ChunkHeader P.
Proof.
  intros HP. destruct P as [ws ss].
  destruct HP as [[Hw|Hw] [Hs|Hs]]; simpl in *; subst; vm_compute;
    split; (reflexivity || discriminate).
Qed.

Lemma cons_is_longer {A : Type} (x : A) (l : list A) : x :: l <> l.
Proof.
  intros E. apply (f_equal (@List.length A)) in E. simpl in E. lia.
Qed.

(** X7 (copying a handle). Copy-constructing a new handle [this] from
    [other] gives it the pointer and the length of [other], leaves
    [other] and every other handle as they were, and the two handles
    compare equal and convert to the same text: the copy shares the
    characters, it does not duplicate them. *)
Theorem copy_construct_shares_characters (P : Platform) (m : Memory)
    (o : Objects) (this other : nat) :
  this <> other ->
  let o' := copy_construct o this other in
  o' this = o other /\
  o' other = o other /\
  (forall x, x <> this -> o' x = o x) /\
  m_ptr (o' this) = m_ptr (o' other) /\
  Compare P m (o' this) (o' other) = 0 /\
  ToStdString P m (o' this) = ToStdString P m (o other).
Proof.
  intros Hne o'.
  assert (Hthis : o' this = o other).
  { unfold o', copy_construct, set_m_ptr, set_m_length.
    rewrite ?Nat.eqb_refl. simpl.
    destruct (Nat.eqb other this); simpl; apply String_eta. }
  assert (Hrest : forall x, x <> this -> o' x = o x).
  { intros x Hx. apply Nat.eqb_neq in Hx.
    unfold o', copy_construct, set_m_ptr, set_m_length.
    rewrite ?Hx. reflexivity. }
  assert (Hother : o' other = o other).
  { apply Hrest. intros E. apply Hne. symmetry. exact E. }
  split; [exact Hthis|]. split; [exact Hother|]. split; [exact Hrest|].
  rewrite Hthis, Hother. split; [reflexivity|]. split; [|reflexivity].
  destruct (o other) as [p l]. apply Compare_same.
Qed.

Lemma copy_construct_shares_characters_witness :
  let o : Objects :=
    fun x => if Nat.eqb x 1 then mkString 4112 5 else String_default in
  copy_construct o 2 1 2%nat = mkString 4112 5 /\
  copy_construct o 2 1 1%nat = mkString 4112 5 /\
  Compare lp64 (fun _ => 0) (copy_construct o 2 1 2%nat)
    (copy_construct o 2 1 1%nat) = 0.
Proof.
  intros o.
  assert (Hne : 2%nat <> 1%nat) by discriminate.
  pose proof (copy_construct_shares_characters lp64 (fun _ => 0) o 2 1 Hne)
    as (H1 & H2 & _ & _ & H5 & _).
  split; [exact H1|]. split; [exact H2 | exact H5].
Defined.

Section ExactOutcomeFacts.

Variable P : Platform.
Variable malloc : Provider.
Variable push_back_ok : Exact.VectorOracle.
Variable size_image : Exact.SizeImage.
Hypothesis HP : platform_ok P.
Hypothesis Hrange : Exact.provider_in_range P malloc.

Local Abbreviation wsz := (sizeof_wchar_t P).
Local Abbreviation hdr := (sizeof_ChunkHeader P).
Local Abbreviation M := (SIZE_MODULUS P).

(** The outcome of a call in a state where the pointer sum does not
    wrap, with the tests written on unbounded addresses. *)
Lemma exact_AllocString_outcome (fuel : nat) (s : list wchar_t) (w : World) :
  (2 <= fuel)%nat -> Exact.pool_ok P w -> Exact.no_wrap P w s ->
  let len := Z.of_nat (List.length s) in
  let slots := len + 1 in
  let g := Exact.grown P malloc size_image w slots in
  Exact.AllocString P malloc push_back_ok size_image fuel s w =
  if m_pNext (pool w) + slots * wsz <=? m_pLimit (pool w)
  then (Exact.Returned (mkString (m_pNext (pool w)) len),
        Exact.written P (Exact.carved P w slots) (m_pNext (pool w)) s)
  else if slots >? kMaxStringLength then (Exact.Thrown Exact.AtLengthCheck, w)
  else if malloc (live w) (chunk_size_for P slots) =? 0
       then (Exact.Thrown Exact.AtAllocate, w)
       else if push_back_ok (m_chunks (pool w))
            then (Exact.Returned (mkString (m_pNext (pool g)) len),
                  Exact.written P (Exact.carved P g slots) (m_pNext (pool g)) s)
            else (Exact.Thrown Exact.AtPushBack,
                  Exact.stranded P malloc size_image w slots).
Proof.
  intros Hf Hok Hnw len slots g.
  destruct (no_wrap_facts P HP w s Hok Hnw) as (Hs & Hfits & _ & _).
  rewrite (exact_AllocString_closed P malloc push_back_ok size_image HP Hrange
             fuel s w Hf).
  cbv zeta. rewrite Hs, Hfits. reflexivity.
Qed.

End ExactOutcomeFacts.

(** X8 (what decides the outcome). In a reachable state, for a call whose
    pointer sum stays inside the address space, four tests decide the
    outcome of [AllocString]: it throws at the length check exactly when
    [len(s) >= kMaxStringLength]; it throws for a failed [Allocate]
    exactly when [len(s) < kMaxStringLength], the [len(s)+1] slots do not
    fit between [m_pNext] and [m_pLimit] and [malloc] returns null; it
    throws from [m_chunks.push_back] exactly when, with the same two
    tests, [malloc] returns a block and the vector cannot grow; and it
    returns a handle in all other cases. *)
Theorem AllocString_four_outcomes (P : Platform) (malloc : Provider)
    (push_back_ok : Exact.VectorOracle) (size_image : Exact.SizeImage)
    (fuel : nat) (s : list wchar_t) (w : World) :
  platform_ok P -> Exact.provider_in_range P malloc -> (2 <= fuel)%nat ->
  Exact.reachable P malloc push_back_ok size_image w ->
  Exact.no_wrap P w s ->
  let len := Z.of_nat (List.length s) in
  let slots := len + 1 in
  let room := m_pNext (pool w) + slots * sizeof_wchar_t P <= m_pLimit (pool w) in
  let p := malloc (live w) (chunk_size_for P slots) in
  let r := fst (Exact.AllocString P malloc push_back_ok size_image fuel s w) in
  (r = Exact.Thrown Exact.AtLengthCheck <-> kMaxStringLength <= len) /\
  (r = Exact.Thrown Exact.AtAllocate <->
   len < kMaxStringLength /\ ~ room /\ p = 0) /\
  (r = Exact.Thrown Exact.AtPushBack <->
   len < kMaxStringLength /\ ~ room /\ p <> 0 /\
   push_back_ok (m_chunks (pool w)) = false) /\
  ((exists h, r = Exact.Returned h) <->
   len < kMaxStringLength /\
   (room \/ (p <> 0 /\ push_back_ok (m_chunks (pool w)) = true))) /\
  r <> Exact.OutOfBudget.
Proof.
  intros HP Hrange Hf Hr Hnw len slots room p r.
  pose proof (exact_reachable_pool_ok P malloc push_back_ok size_image HP
                Hrange w Hr) as Hok.
  destruct (no_wrap_facts P HP w s Hok Hnw) as (_ & _ & _ & Hceil).
  fold len slots in Hceil. fold room in Hceil.
  assert (Er : r = fst (Exact.AllocString P malloc push_back_ok size_image
                          fuel s w)) by reflexivity.
  rewrite (exact_AllocString_outcome P malloc push_back_ok size_image HP
             Hrange fuel s w Hf Hok Hnw) in Er.
  cbv zeta in Er. fold len slots p in Er.
  assert (Hyes : forall h : String,
            exists h', Exact.Returned h = Exact.Returned h')
    by (intros h; exists h; reflexivity).
  assert (Hno : forall site,
            ~ exists h : String, Exact.Thrown site = Exact.Returned h)
    by (intros site [h H]; discriminate H).
  destruct (Z.leb_spec (m_pNext (pool w) + slots * sizeof_wchar_t P)
                       (m_pLimit (pool w))) as [Hfit|Hnofit].
  { specialize (Hceil Hfit). simpl in Er. rewrite Er.
    assert (Hlen : len < kMaxStringLength) by (unfold slots in Hceil; lia).
    assert (Hroom : room) by exact Hfit.
    specialize (Hyes (mkString (m_pNext (pool w)) len)).
    clear Er Hfit Hceil.
    intuition (try discriminate; try lia). }
  assert (Hroom : ~ room) by (unfold room; lia).
  destruct (Z.gtb_spec slots kMaxStringLength) as [Hbig|Hsmall].
  { simpl in Er. rewrite Er.
    assert (Hlen : kMaxStringLength <= len) by (unfold slots in Hbig; lia).
    specialize (Hno Exact.AtLengthCheck). clear Er Hyes Hceil Hnofit.
    intuition (try discriminate; try lia). }
  assert (Hlen : len < kMaxStringLength) by (unfold slots in Hsmall; lia).
  destruct (Z.eqb_spec p 0) as [Hz|Hnz].
  { simpl in Er. rewrite Er.
    specialize (Hno Exact.AtAllocate). clear Er Hyes Hceil Hnofit.
    intuition (try discriminate; try lia). }
  destruct (push_back_ok (m_chunks (pool w))) eqn:Hpush.
  - simpl in Er. rewrite Er.
    specialize (Hyes (mkString
      (m_pNext (pool (Exact.grown P malloc size_image w slots))) len)).
    clear Er Hno Hceil Hnofit.
    intuition (try discriminate; try lia).
  - simpl in Er. rewrite Er.
    specialize (Hno Exact.AtPushBack). clear Er Hyes Hceil Hnofit.
    intuition (try discriminate; try lia).
Qed.

Lemma AllocString_four_outcomes_witness :
  let s : list wchar_t := [72; 105] in
  let run := fun malloc push_back_ok =>
    fst (Exact.AllocString lp64 malloc push_back_ok (Exact.little_endian lp64)
           2 s empty_world) in
  run exhausted_malloc Exact.vector_grows = Exact.Thrown Exact.AtAllocate /\
  run (Exact.bounded_malloc lp64) Exact.vector_exhausted
    = Exact.Thrown Exact.AtPushBack /\
  exists h, run (Exact.bounded_malloc lp64) Exact.vector_grows
            = Exact.Returned h.
Proof.
  intros s run.
  assert (Hnw : Exact.no_wrap lp64 empty_world s) by (vm_compute; reflexivity).
  assert (Hk : Z.of_nat (List.length s) < kMaxStringLength)
    by (vm_compute; reflexivity).
  assert (Hroom : ~ (m_pNext (pool empty_world)
                     + (Z.of_nat (List.length s) + 1) * sizeof_wchar_t lp64
                     <= m_pLimit (pool empty_world)))
    by (vm_compute; intros H; apply H; reflexivity).
  assert (Hp : Exact.bounded_malloc lp64 (live empty_world)
                 (chunk_size_for lp64 (Z.of_nat (List.length s) + 1)) <> 0)
    by (vm_compute; discriminate).
  split; [|split].
  - apply (proj1 (proj2 (AllocString_four_outcomes lp64 exhausted_malloc
                           Exact.vector_grows (Exact.little_endian lp64) 2 s
                           empty_world lp64_ok (exhausted_malloc_in_range lp64)
                           (le_n 2)
                           (Exact.reach_new lp64 exhausted_malloc
                              Exact.vector_grows (Exact.little_endian lp64)
                              [] (fun _ => 0))
                           Hnw))).
    split; [exact Hk|]. split; [exact Hroom | reflexivity].
  - apply (proj1 (proj2 (proj2 (AllocString_four_outcomes lp64
                           (Exact.bounded_malloc lp64)
                           Exact.vector_exhausted (Exact.little_endian lp64) 2 s
                           empty_world lp64_ok (bounded_malloc_in_range lp64)
                           (le_n 2)
                           (Exact.reach_new lp64 (Exact.bounded_malloc lp64)
                              Exact.vector_exhausted (Exact.little_endian lp64)
                              [] (fun _ => 0))
                           Hnw)))).
    split; [exact Hk|]. split; [exact Hroom|]. split; [exact Hp | reflexivity].
  - apply (proj1 (proj2 (proj2 (proj2 (AllocString_four_outcomes lp64
                           (Exact.bounded_malloc lp64)
                           Exact.vector_grows (Exact.little_endian lp64) 2 s
                           empty_world lp64_ok (bounded_malloc_in_range lp64)
                           (le_n 2)
                           (Exact.reach_new lp64 (Exact.bounded_malloc lp64)
                              Exact.vector_grows (Exact.little_endian lp64)
                              [] (fun _ => 0))
                           Hnw))))).
    split; [exact Hk|]. right. split; [exact Hp | reflexivity].
Defined.

(** X9 (one block per call at most). An [AllocString] call, from any
    state, never removes or reorders chunks and asks the provider for at
    most one block.  Either [m_chunks] and the provider's live blocks are
    as before and the call did not throw from [push_back]; or the
    request did not fit and one block of at least [kMinChunkSizeInBytes]
    bytes is new among the live ones, with [m_pLimit] at its end: then
    the call returned a handle and the block is the one chunk appended
    to [m_chunks], or it threw from [push_back] and [m_chunks] is as
    before, with [m_pNext] behind the header of a block no chunk
    records. *)
Theorem AllocString_takes_at_most_one_block (P : Platform) (malloc : Provider)
    (push_back_ok : Exact.VectorOracle) (size_image : Exact.SizeImage)
    (fuel : nat) (s : list wchar_t) (w : World) :
  platform_ok P -> Exact.provider_in_range P malloc -> (2 <= fuel)%nat ->
  let slots := size_t_wrap P (Z.of_nat (List.length s) + 1) in
  let cb := chunk_size_for P slots in
  let p := malloc (live w) cb in
  let r := Exact.AllocString P malloc push_back_ok size_image fuel s w in
  (m_chunks (pool (snd r)) = m_chunks (pool w) /\
   live (snd r) = live w /\
   fst r <> Exact.Thrown Exact.AtPushBack) \/
  (Exact.fits P (pool w) slots = false /\
   p <> 0 /\ kMinChunkSizeInBytes <= cb /\
   live (snd r) = (p, cb) :: live w /\
   m_pLimit (pool (snd r)) = p + cb /\
   (((exists h, fst r = Exact.Returned h) /\
     m_chunks (pool (snd r)) = m_chunks (pool w) ++ [mkChunk p cb]) \/
    (fst r = Exact.Thrown Exact.AtPushBack /\
     m_chunks (pool (snd r)) = m_chunks (pool w) /\
     m_pNext (pool (snd r)) = p + sizeof_ChunkHeader P))).
Proof.
  intros HP Hrange Hf slots cb p r. unfold r.
  rewrite (exact_AllocString_closed P malloc push_back_ok size_image HP Hrange
             fuel s w Hf).
  cbv zeta. fold slots. fold cb. fold p.
  destruct (Exact.fits P (pool w) slots).
  { left. simpl. repeat split. discriminate. }
  destruct (Z.gtb_spec slots kMaxStringLength) as [Hbig|Hsmall].
  { left. simpl. repeat split. discriminate. }
  destruct (Z.eqb_spec p 0) as [Hz|Hnz].
  { left. simpl. repeat split. discriminate. }
  assert (HL : 0 <= slots <= kMaxStringLength)
    by (split; [apply size_t_wrap_nonneg, HP | exact Hsmall]).
  destruct (granted_block P malloc HP Hrange w slots HL Hnz)
    as (_ & _ & _ & E1 & E2 & _).
  fold cb in E1, E2. fold p in E1, E2.
  pose proof (chunk_size_for_bounds P HP slots HL) as (_ & Hmin & _).
  fold cb in Hmin.
  right. split; [reflexivity|]. split; [exact Hnz|]. split; [exact Hmin|].
  destruct (push_back_ok (m_chunks (pool w))); simpl; fold cb; fold p.
  - split; [reflexivity|]. split; [exact E2|]. left.
    split; [eexists; reflexivity | reflexivity].
  - split; [reflexivity|]. split; [exact E2|]. right.
    split; [reflexivity|]. split; [reflexivity | exact E1].
Qed.

Lemma AllocString_takes_at_most_one_block_witness :
  let s : list wchar_t := [72; 105] in
  let grew := snd (Exact.AllocString lp64 (Exact.bounded_malloc lp64)
                     Exact.vector_grows (Exact.little_endian lp64) 2 s
                     empty_world) in
  let threw := snd (Exact.AllocString lp64 (Exact.bounded_malloc lp64)
                      Exact.vector_exhausted (Exact.little_endian lp64) 2 s
                      empty_world) in
  (m_chunks (pool grew) = [mkChunk 4096 600000] /\
   live grew = [(4096, 600000)]) /\
  (m_chunks (pool threw) = [] /\ live threw = [(4096, 600000)]).
Proof.
  intros s grew threw. split.
  - destruct (AllocString_takes_at_most_one_block lp64
                (Exact.bounded_malloc lp64) Exact.vector_grows
                (Exact.little_endian lp64) 2 s empty_world lp64_ok
                (bounded_malloc_in_range lp64) (le_n 2))
      as [(_ & Hl & _) | (_ & _ & _ & Hl & _ & [[_ Hc] | (Ht & _)])].
    + vm_compute in Hl. discriminate Hl.
    + split; [exact Hc | exact Hl].
    + vm_compute in Ht. discriminate Ht.
  - destruct (AllocString_takes_at_most_one_block lp64
                (Exact.bounded_malloc lp64) Exact.vector_exhausted
                (Exact.little_endian lp64) 2 s empty_world lp64_ok
                (bounded_malloc_in_range lp64) (le_n 2))
      as [(_ & _ & Ht) | (_ & _ & _ & Hl & _ & [[[h Hh] _] | (_ & Hc & _)])].
    + exfalso. apply Ht. vm_compute. reflexivity.
    + vm_compute in Hh. discriminate Hh.
    + split; [exact Hc | exact Hl].
Defined.

(** X10 (where a returning call writes). A returning [AllocString] call
    in a reachable state, its pointer sum inside the address space,
    writes only inside one live block of the provider: the slots of the
    string and its terminator lie behind the header of that block and
    before its end, inside the address space.  When no block was
    requested nothing outside the slots changes; when the block is new
    the only other change is the [SizeInBytes] field at its start, which
    holds the image of the block's size. *)
Theorem AllocString_writes_inside_its_block (P : Platform) (malloc : Provider)
    (push_back_ok : Exact.VectorOracle) (size_image : Exact.SizeImage)
    (fuel : nat) (s : list wchar_t) (w : World) (h : String) :
  platform_ok P -> Exact.provider_in_range P malloc -> (2 <= fuel)%nat ->
  Exact.reachable P malloc push_back_ok size_image w ->
  Exact.no_wrap P w s ->
  fst (Exact.AllocString P malloc push_back_ok size_image fuel s w)
  = Exact.Returned h ->
  let w' := snd (Exact.AllocString P malloc push_back_ok size_image fuel s w) in
  let start := m_ptr h in
  let finish := m_ptr h + (Z.of_nat (List.length s) + 1) * sizeof_wchar_t P in
  exists b n,
    In (b, n) (live w') /\ 0 < b /\
    b + sizeof_ChunkHeader P <= start /\ finish <= b + n /\
    b + n < SIZE_MODULUS P /\
    (forall a, a < start \/ finish <= a ->
               live w' = live w \/ a < b \/ b + sizeof_size_t P <= a ->
               chars w' a = chars w a) /\
    (live w' <> live w ->
     forall k, 0 <= k < sizeof_size_t P ->
               chars w' (b + k) = size_image n k).
Proof.
  intros HP Hrange Hf Hr Hnw Hret w' start finish.
  pose proof (exact_reachable_pool_ok P malloc push_back_ok size_image HP
                Hrange w Hr) as Hok.
  destruct (no_wrap_facts P HP w s Hok Hnw) as (_ & _ & _ & Hceil).
  pose proof (wchar_size_cases P HP) as Hw.
  pose proof (size_field_inside_header P HP) as Hfield.
  unfold w', start, finish. clear w' start finish.
  rewrite (exact_AllocString_outcome P malloc push_back_ok size_image HP
             Hrange fuel s w Hf Hok Hnw) in Hret |- *.
  cbv zeta in Hret |- *.
  destruct (Z.leb_spec (m_pNext (pool w)
                        + (Z.of_nat (List.length s) + 1) * sizeof_wchar_t P)
                       (m_pLimit (pool w))) as [Hfit|Hnofit].
  { simpl in Hret. injection Hret as <-. simpl m_ptr. simpl snd.
    destruct (pool_ok_bounds P HP w Hok) as (H0 & _).
    destruct (exact_written_reads_back P HP
                (Exact.carved P w (Z.of_nat (List.length s) + 1))
                (m_pNext (pool w)) s H0 Hnw) as (_ & _ & Hframe).
    destruct Hok as [[E1 E2] | (b & n & Hin & Hb & Hlo & Hle & Hlim & Hend & Hn)].
    { rewrite E1, E2 in Hfit. nia. }
    exists b, n. split; [exact Hin|]. split; [exact Hb|].
    split; [exact Hlo|]. split; [lia|]. split; [exact Hend|]. split.
    - intros a Ha _. apply Hframe, Ha.
    - intros Hne. contradiction Hne. reflexivity. }
  destruct (Z.gtb_spec (Z.of_nat (List.length s) + 1) kMaxStringLength)
    as [Hbig|Hsmall]; [discriminate Hret|].
  destruct (Z.eqb_spec (malloc (live w)
              (chunk_size_for P (Z.of_nat (List.length s) + 1))) 0)
    as [Hz|Hnz]; [discriminate Hret|].
  destruct (push_back_ok (m_chunks (pool w))); [|discriminate Hret].
  simpl in Hret. injection Hret as <-. simpl m_ptr. simpl snd.
  assert (HL : 0 <= Z.of_nat (List.length s) + 1 <= kMaxStringLength) by lia.
  destruct (granted_block P malloc HP Hrange w _ HL Hnz)
    as (Hp & Hend & Hroom & E1 & E2 & E3).
  pose proof (header_size_cases P HP) as Hh.
  rewrite E1.
  destruct (exact_written_reads_back P HP
              (Exact.carved P
                 (Exact.grown P malloc size_image w
                    (Z.of_nat (List.length s) + 1))
                 (Z.of_nat (List.length s) + 1))
              (malloc (live w)
                 (chunk_size_for P (Z.of_nat (List.length s) + 1))
               + sizeof_ChunkHeader P) s) as (_ & _ & Hframe); [lia | lia |].
  simpl in Hframe.
  exists (malloc (live w) (chunk_size_for P (Z.of_nat (List.length s) + 1))),
         (chunk_size_for P (Z.of_nat (List.length s) + 1)).
  split; [now left|]. split; [exact Hp|]. split; [lia|]. split; [lia|].
  split; [exact Hend|]. split.
  - intros a Ha Hout. simpl. rewrite (Hframe a Ha).
    unfold Exact.store_size.
    destruct Hout as [Hl | Hout]; [now apply cons_is_longer in Hl|].
    destruct (Z.leb_spec (malloc (live w)
                (chunk_size_for P (Z.of_nat (List.length s) + 1))) a);
      destruct (Z.ltb_spec a (malloc (live w)
                  (chunk_size_for P (Z.of_nat (List.length s) + 1))
                  + sizeof_size_t P)); simpl; try reflexivity; lia.
  - intros _ k Hk. simpl. rewrite Hframe by lia.
    unfold Exact.store_size.
    destruct (Z.leb_spec (malloc (live w)
                (chunk_size_for P (Z.of_nat (List.length s) + 1)))
                (malloc (live w)
                   (chunk_size_for P (Z.of_nat (List.length s) + 1)) + k));
      [|lia].
    destruct (Z.ltb_spec (malloc (live w)
                (chunk_size_for P (Z.of_nat (List.length s) + 1)) + k)
                (malloc (live w)
                   (chunk_size_for P (Z.of_nat (List.length s) + 1))
                 + sizeof_size_t P)); [|lia].
    simpl. f_equal. lia.
Qed.

Lemma AllocString_writes_inside_its_block_witness :
  let r := Exact.AllocString lp64 (Exact.bounded_malloc lp64)
             Exact.vector_grows (Exact.little_endian lp64) 2 [72; 105]
             empty_world in
  fst r = Exact.Returned (mkString 4112 2) /\
  exists b n,
    In (b, n) (live (snd r)) /\
    b + sizeof_ChunkHeader lp64 <= 4112 /\
    4112 + 3 * sizeof_wchar_t lp64 <= b + n /\
    chars (snd r) b = Exact.little_endian lp64 n 0.
Proof.
  intros r.
  assert (Hret : fst r = Exact.Returned (mkString 4112 2))
    by (vm_compute; reflexivity).
  split; [exact Hret|].
  destruct (AllocString_writes_inside_its_block lp64
              (Exact.bounded_malloc lp64) Exact.vector_grows
              (Exact.little_endian lp64) 2 [72; 105] empty_world
              (mkString 4112 2) lp64_ok (bounded_malloc_in_range lp64)
              (le_n 2)
              (Exact.reach_new lp64 (Exact.bounded_malloc lp64)
                 Exact.vector_grows (Exact.little_endian lp64) [] (fun _ => 0))
              ltac:(vm_compute; reflexivity) Hret)
    as (b & n & Hin & _ & Hlo & Hhi & _ & _ & Hhdr).
  exists b, n. split; [exact Hin|]. split; [exact Hlo|]. split; [exact Hhi|].
  rewrite <- (Z.add_0_r b) at 1. apply Hhdr.
  - vm_compute. discriminate.
  - vm_compute. split; [discriminate | reflexivity].
Defined.

Section ExactLifetimeFacts.

Variable P : Platform.
Variable malloc : Provider.
Variable push_back_ok : Exact.VectorOracle.
Variable size_image : Exact.SizeImage.
Hypothesis HP : platform_ok P.
Hypothesis Hrange : Exact.provider_in_range P malloc.
Hypothesis Hfresh : provider_fresh malloc.
Hypothesis Hgrows : forall chunks, push_back_ok chunks = true.

(** While the chunk vector grows, a call keeps the provider's live blocks
    in step with the chunks. *)
Lemma exact_owns_after_AllocString (fuel : nat) (s : list wchar_t)
    (lv0 : list Block) (w : World) :
  (2 <= fuel)%nat ->
  Forall (fun b => 0 < snd b) lv0 ->
  owns_on_top_of lv0 w ->
  owns_on_top_of lv0
    (snd (Exact.AllocString P malloc push_back_ok size_image fuel s w)).
Proof.
  intros Hf Hpos [Hlive Hnot].
  rewrite (exact_AllocString_closed P malloc push_back_ok size_image HP Hrange
             fuel s w Hf).
  cbv zeta. rewrite Hgrows.
  destruct (Exact.fits P (pool w) _); [split; assumption|].
  destruct (Z.gtb_spec (size_t_wrap P (Z.of_nat (List.length s) + 1))
                       kMaxStringLength) as [Hbig|Hsmall];
    [split; assumption|].
  destruct (Z.eqb_spec (malloc (live w) (chunk_size_for P
              (size_t_wrap P (Z.of_nat (List.length s) + 1)))) 0) as [Hz|Hnz];
    [split; assumption|].
  unfold owns_on_top_of, Exact.written, Exact.carved, Exact.grown. simpl.
  split.
  - rewrite rev_unit. simpl. rewrite Hlive. reflexivity.
  - apply Forall_app. split; [exact Hnot|]. constructor; [|constructor].
    simpl. intros Hin. apply in_map_iff in Hin.
    destruct Hin as ([b n] & Hb & Hin). simpl in Hb. subst b.
    rewrite Forall_forall in Hpos. pose proof (Hpos _ Hin) as Hn.
    simpl in Hn.
    assert (Hin' : In (malloc (live w) (chunk_size_for P
                     (size_t_wrap P (Z.of_nat (List.length s) + 1))), n)
                      (live w)).
    { assert (Hsub : forall x, In x lv0 -> In x (live w))
        by (intros x Hx; rewrite Hlive; apply in_or_app; now right).
      apply Hsub, Hin. }
    pose proof (Hfresh (live w) _ _ _ Hnz Hin') as Hdisj.
    assert (HL : 0 <= size_t_wrap P (Z.of_nat (List.length s) + 1)
                 <= kMaxStringLength)
      by (split; [apply size_t_wrap_nonneg, HP | exact Hsmall]).
    pose proof (chunk_size_for_bounds P HP _ HL) as (_ & Hcb & _).
    unfold kMinChunkSizeInBytes in Hcb. lia.
Qed.

Lemma exact_owns_after_calls (fuel : nat) (cs : list Call)
    (lv0 : list Block) :
  (2 <= fuel)%nat ->
  Forall (fun b => 0 < snd b) lv0 ->
  forall w,
    owns_on_top_of lv0 w ->
    owns_on_top_of lv0
      (Exact.do_calls P malloc push_back_ok size_image fuel cs w).
Proof.
  intros Hf Hpos. induction cs as [|c cs IH]; intros w Hw; [exact Hw|].
  simpl. apply IH. destruct c as [s|src|]; simpl.
  - apply exact_owns_after_AllocString; assumption.
  - unfold Exact.AllocString_sz.
    apply exact_owns_after_AllocString; assumption.
  - split; [|constructor]. simpl. apply (Clear_restores lv0 w Hw).
Qed.

End ExactLifetimeFacts.

(** X19 (what the allocator takes it gives back, while the vector
    grows). If [m_chunks.push_back] never throws then, after any
    sequence of [AllocString] calls (either overload) and [Clear] calls
    on a new allocator, returning or throwing, the provider's live blocks
    are the allocator's chunks on top of the blocks live before, and the
    destructor frees every chunk and no other block. *)
Theorem recorded_chunks_are_released (P : Platform) (malloc : Provider)
    (push_back_ok : Exact.VectorOracle) (size_image : Exact.SizeImage)
    (fuel : nat) (cs : list Call) (lv0 : list Block) (m : Memory) :
  platform_ok P -> Exact.provider_in_range P malloc ->
  provider_fresh malloc -> (2 <= fuel)%nat ->
  (forall chunks, push_back_ok chunks = true) ->
  Forall (fun b => 0 < snd b) lv0 ->
  let w := Exact.do_calls P malloc push_back_ok size_image fuel cs
             (mkWorld Allocator_new lv0 m) in
  live w = map block_of (rev (m_chunks (pool w))) ++ lv0 /\
  live (Allocator_destroy w) = lv0 /\
  m_chunks (pool (Allocator_destroy w)) = [].
Proof.
  intros HP Hrange Hfresh Hf Hgrows Hpos w.
  assert (Hown : owns_on_top_of lv0 w).
  { apply exact_owns_after_calls; trivial. split; [reflexivity | constructor]. }
  split; [exact (proj1 Hown)|]. split; [|reflexivity].
  apply Clear_restores, Hown.
Qed.

Lemma recorded_chunks_are_released_witness :
  let lv0 : list Block := [(100, 50)] in
  let cs := [CallAllocString [72; 105]; CallClear;
             CallAllocString_sz [66; 121; 101; 0];
             CallAllocString ceiling_string] in
  let w := Exact.do_calls lp64 (Exact.bounded_malloc lp64) Exact.vector_grows
             (Exact.little_endian lp64) 2 cs
             (mkWorld Allocator_new lv0 (fun _ => 0)) in
  Forall (fun b : Block => 0 < snd b) lv0 /\
  live (Allocator_destroy w) = lv0.
Proof.
  intros lv0 cs w.
  assert (Hpos : Forall (fun b : Block => 0 < snd b) lv0)
    by (apply Forall_cons; [reflexivity | apply Forall_nil]).
  split; [exact Hpos|].
  exact (proj1 (proj2 (recorded_chunks_are_released lp64
                         (Exact.bounded_malloc lp64) Exact.vector_grows
                         (Exact.little_endian lp64) 2 cs lv0 (fun _ => 0)
                         lp64_ok (bounded_malloc_in_range lp64)
                         (bounded_malloc_fresh lp64) (le_n 2)
                         (fun _ => eq_refl) Hpos))).
Defined.

(** * The two embeddings side by side *)

Section ExactAgreement.

Variable P : Platform.
Variable malloc : Provider.
Variable push_back_ok : Exact.VectorOracle.
Variable size_image : Exact.SizeImage.
Hypothesis HP : platform_ok P.
Hypothesis Hrange : Exact.provider_in_range P malloc.

Lemma wmemcpy_agree (src : list wchar_t) (a : Z) :
  forall n m m' dest,
    m a = m' a ->
    wmemcpy P m dest src n a = wmemcpy P m' dest src n a.
Proof.
  induction src as [|c src IH]; intros [|n] m m' dest E; simpl;
    try exact E.
  apply IH. unfold store. destruct (a =? dest); [reflexivity | exact E].
Qed.

(** On a call where the chunk vector can grow and the pointer sum stays
    inside the address space, [AllocString] and [Exact.AllocString] have
    the same outcome, leave the same allocator and the same live blocks,
    and leave the same memory but for the [SizeInBytes] field of a new
    block. *)
Lemma granted_path_agrees (fuel : nat) (s : list wchar_t) (w : World) :
  (2 <= fuel)%nat -> Exact.pool_ok P w -> Exact.no_wrap P w s ->
  push_back_ok (m_chunks (pool w)) = true ->
  let r := Exact.AllocString P malloc push_back_ok size_image fuel s w in
  let r0 := AllocString P malloc fuel s w in
  let p := malloc (live w) (chunk_size_for P (Z.of_nat (List.length s) + 1)) in
  (forall h, fst r = Exact.Returned h <-> fst r0 = Return h) /\
  (fst r = Exact.Thrown Exact.AtLengthCheck <-> fst r0 = Throw TooLong) /\
  (fst r = Exact.Thrown Exact.AtAllocate <-> fst r0 = Throw OutOfMemory) /\
  pool (snd r) = pool (snd r0) /\
  live (snd r) = live (snd r0) /\
  (forall a, live (snd r) = live w \/ a < p \/ p + sizeof_size_t P <= a ->
             chars (snd r) a = chars (snd r0) a).
Proof.
  intros Hf Hok Hnw Hpush r r0 p.
  destruct (no_wrap_facts P HP w s Hok Hnw) as (Hs & Hfits & Hadd & Hceil).
  destruct (pool_ok_bounds P HP w Hok) as (H0 & _).
  pose proof (wchar_size_cases P HP) as Hw.
  pose proof (header_size_cases P HP) as Hh.
  assert (Er : r = Exact.AllocString P malloc push_back_ok size_image fuel s w)
    by reflexivity.
  assert (Er0 : r0 = AllocString P malloc fuel s w) by reflexivity.
  rewrite (exact_AllocString_outcome P malloc push_back_ok size_image HP
             Hrange fuel s w Hf Hok Hnw) in Er.
  unfold AllocString in Er0.
  rewrite (AllocMemory_for_string P malloc HP fuel Hf s w) in Er0.
  rewrite Hs in Er0. unfold fits in Er0.
  cbv zeta in Er. rewrite Hpush in Er. fold p in Er, Er0.
  unfold Exact.no_wrap in Hnw.
  destruct (m_pNext (pool w)
            + (Z.of_nat (List.length s) + 1) * sizeof_wchar_t P
            <=? m_pLimit (pool w)).
  { rewrite Er, Er0. simpl. rewrite Nat2Z.id.
    split; [intros h; split; intros E; injection E as <-; reflexivity|].
    split; [split; discriminate|]. split; [split; discriminate|].
    unfold carved. simpl. rewrite Hadd.
    split; [reflexivity|]. split; [reflexivity|]. intros a _.
    rewrite exact_wmemcpy_unbounded by (trivial; nia).
    rewrite (ptr_add_small P) by nia. reflexivity. }
  destruct (Z.gtb_spec (Z.of_nat (List.length s) + 1) kMaxStringLength)
    as [Hbig|Hsmall].
  { rewrite Er, Er0. simpl.
    split; [intros h; split; discriminate|].
    split; [split; reflexivity|]. split; [split; discriminate|].
    repeat split. }
  destruct (Z.eqb_spec p 0) as [Hz|Hnz].
  { rewrite Er, Er0. simpl.
    split; [intros h; split; discriminate|].
    split; [split; discriminate|]. split; [split; reflexivity|].
    repeat split. }
  assert (HL : 0 <= Z.of_nat (List.length s) + 1 <= kMaxStringLength) by lia.
  destruct (granted_block P malloc HP Hrange w _ HL Hnz)
    as (Hp & Hend & Hroom & E1 & E2 & E3).
  fold p in Hp, Hend, Hroom, E1, E2, E3.
  rewrite Er, Er0. simpl. rewrite Nat2Z.id. fold p. rewrite E1.
  split; [intros h; split; intros E; injection E as <-; reflexivity|].
  split; [split; discriminate|]. split; [split; discriminate|].
  unfold carved, grown. simpl. fold p. rewrite ?E1, ?E2, ?E3.
  split; [reflexivity|]. split; [reflexivity|]. intros a Ha.
  rewrite exact_wmemcpy_unbounded by (trivial; nia).
  rewrite (ptr_add_small P) by nia.
  unfold store. destruct (a =? _); [reflexivity|].
  apply wmemcpy_agree. unfold Exact.store_size.
  destruct Ha as [Hl | Ha]; [now apply cons_is_longer in Hl|].
  destruct (Z.leb_spec p a); destruct (Z.ltb_spec a (p + sizeof_size_t P));
    simpl; try reflexivity; lia.
Qed.

End ExactAgreement.
